(** * Newtonian Entangledment Dynamics: the rotational core of [main.cu]

    The development embeds the CUDA kernel [enforce_mesh], the quaternion
    helpers [quat_mul], [quat_norm], [integrate_quat], [quat_to_mat], the
    mesh generator [makeToothedSphere] and the body of the render loop of
    [main].  Of the drawing only the values handed over are kept: the
    matrix, the positions and the two readings of the HUD.  The calls into
    OpenGL, GLFW and GLUT read the state and never write it.

    Every function of the source is written once, over an arithmetic
    interface [Arith], and read in two arithmetics:

    - [Binary32]: IEEE-754 single precision, the [float] of the source,
      through the Standard Library's [SpecFloat] (24 bits of precision,
      [emax = 128]).  Each operator of the source is one correctly rounded
      operation (round to nearest, ties to even), in the order C++ parses
      the expression; no operations are fused and subnormal numbers are
      kept.
    - [Exact]: the real numbers, the arithmetic in which the algebra of the
      model is usually described. *)

From Stdlib Require Import ZArith Bool List Lia.
From Stdlib Require Import Floats.SpecFloat.
From Stdlib Require Import Reals Lra.
Import ListNotations.

Set Implicit Arguments.

(** ** The arithmetic interface *)

Declare Scope fl_scope.
Delimit Scope fl_scope with fl.

Class Arith (F : Type) : Type := {
  of_int : Z -> F;                    (* an integer literal used as a float *)
  of_dec : positive -> positive -> F; (* the decimal literal n/d, e.g. 0.05f *)
  fneg   : F -> F;                    (* unary minus *)
  fadd   : F -> F -> F;
  fsub   : F -> F -> F;
  fmul   : F -> F -> F;
  fdiv   : F -> F -> F;
  fsqrt  : F -> F;
  fabs   : F -> F;
  fltb   : F -> F -> bool;            (* the C comparison a < b *)
  fmaxf  : F -> F -> F;
  fminf  : F -> F -> F
}.

Infix "+" := fadd : fl_scope.
Infix "-" := fsub : fl_scope.
Infix "*" := fmul : fl_scope.
Infix "/" := fdiv : fl_scope.
Notation "- x" := (fneg x) : fl_scope.
Infix "<?" := fltb : fl_scope.

(** ** Data of the source *)

(** CUDA's [float3]; the fields [x], [y], [z] are [vx], [vy], [vz] here. *)
Record float3 (F : Type) : Type := make_float3 { vx : F; vy : F; vz : F }.

(** [struct SphereGPU { float3 omega; }] *)
Record SphereGPU (F : Type) : Type := mkSphereGPU { omega : float3 F }.

(** [struct Quat { float w,x,y,z; }]; the fields are [qw], [qx], [qy], [qz]. *)
Record Quat (F : Type) : Type := mkQuat { qw : F; qx : F; qy : F; qz : F }.

(** The two phases of the approach controller.  The source has no such
    variable: the phase is the outcome of the test [x1 < -1.01f]. *)
Inductive Phase : Type := APPROACHING | MESHED.

(** The variables of [main] that live across frames: the positions, the
    orientations, the host copies [h1], [h2] and the device records behind
    [d1], [d2]. *)
Record World (F : Type) : Type := mkWorld {
  x1 : F; x2 : F;
  q1 : Quat F; q2 : Quat F;
  h1 : SphereGPU F; h2 : SphereGPU F;
  d1 : SphereGPU F; d2 : SphereGPU F
}.

Section Program.
Context {F : Type} {A : Arith F}.
Local Open Scope fl_scope.

(** Assignment to one field of [s->omega]: [s->omega.y op= ...] reads the
    field, computes and stores it back. *)
Definition upd_x (f : F -> F) (s : SphereGPU F) : SphereGPU F :=
  mkSphereGPU (make_float3 (f (vx (omega s))) (vy (omega s)) (vz (omega s))).
Definition upd_y (f : F -> F) (s : SphereGPU F) : SphereGPU F :=
  mkSphereGPU (make_float3 (vx (omega s)) (f (vy (omega s))) (vz (omega s))).
Definition upd_z (f : F -> F) (s : SphereGPU F) : SphereGPU F :=
  mkSphereGPU (make_float3 (vx (omega s)) (vy (omega s)) (f (vz (omega s)))).

(** [__device__ float3 crossf(float3 a, float3 b)] *)
Definition crossf (a b : float3 F) : float3 F :=
  make_float3
    (vy a * vz b - vz a * vy b)
    (vz a * vx b - vx a * vz b)
    (vx a * vy b - vy a * vx b).

Definition softness : F := of_dec 5 100.     (* 0.05f  *)
Definition damping  : F := of_dec 995 1000.  (* 0.995f *)
Definition maxW     : F := of_dec 50 10.     (* 5.0f   *)

(** [__global__ void enforce_mesh(SphereGPU* a, SphereGPU* b)], launched
    on one thread.  The two records are distinct allocations; the kernel
    returns nothing and rewrites both, so the embedding returns the pair.
    Each [let a := ...] is one assignment statement of the source. *)
Definition enforce_mesh (a b : SphereGPU F) : SphereGPU F * SphereGPU F :=
  let v1 := crossf (omega a) (make_float3 (of_int 1) (of_int 0) (of_int 0)) in
  let v2 := crossf (omega b) (make_float3 (of_int (-1)) (of_int 0) (of_int 0)) in
  let vrel := make_float3 (vx v1 - vx v2) (vy v1 - vy v2) (vz v1 - vz v2) in
  let a := upd_y (fun w => w - vy vrel * softness) a in
  let a := upd_z (fun w => w - vz vrel * softness) a in
  let b := upd_y (fun w => w + vy vrel * softness) b in
  let b := upd_z (fun w => w + vz vrel * softness) b in
  let a := upd_x (fun w => w * damping) a in
  let a := upd_y (fun w => w * damping) a in
  let a := upd_z (fun w => w * damping) a in
  let b := upd_x (fun w => w * damping) b in
  let b := upd_y (fun w => w * damping) b in
  let b := upd_z (fun w => w * damping) b in
  let a := upd_x (fun w => fminf (fmaxf w (- maxW)) maxW) a in
  let a := upd_y (fun w => fminf (fmaxf w (- maxW)) maxW) a in
  let a := upd_z (fun w => fminf (fmaxf w (- maxW)) maxW) a in
  let b := upd_x (fun w => fminf (fmaxf w (- maxW)) maxW) b in
  let b := upd_y (fun w => fminf (fmaxf w (- maxW)) maxW) b in
  let b := upd_z (fun w => fminf (fmaxf w (- maxW)) maxW) b in
  (a, b).

(** [Quat quat_mul(Quat a, Quat b)] *)
Definition quat_mul (a b : Quat F) : Quat F :=
  mkQuat
    (qw a * qw b - qx a * qx b - qy a * qy b - qz a * qz b)
    (qw a * qx b + qx a * qw b + qy a * qz b - qz a * qy b)
    (qw a * qy b - qx a * qz b + qy a * qw b + qz a * qx b)
    (qw a * qz b + qx a * qy b - qy a * qx b + qz a * qw b).

(** The divisor [n] of [quat_norm].  In single precision [fsqrt] is the
    correctly rounded root; the source gets it from either overload of
    [sqrt], since rounding the double-precision root of a [float] to
    [float] gives the same number. *)
Definition quat_len (q : Quat F) : F :=
  fsqrt (qw q * qw q + qx q * qx q + qy q * qy q + qz q * qz q).

(** [Quat quat_norm(Quat q)] *)
Definition quat_norm (q : Quat F) : Quat F :=
  let n := quat_len q in
  mkQuat (qw q / n) (qx q / n) (qy q / n) (qz q / n).

(** [void integrate_quat(Quat& q, float3 w, float dt)]: the new value of
    the referenced quaternion. *)
Definition integrate_quat (q : Quat F) (w : float3 F) (dt : F) : Quat F :=
  let dq := mkQuat (of_int 0) (vx w * dt) (vy w * dt) (vz w * dt) in
  quat_norm (quat_mul q dq).

(** *** The render loop of [main] *)

Definition contactThreshold : F := - of_dec 101 100.  (* -1.01f *)
Definition approachStep     : F := of_dec 1 100.       (* 0.01f  *)
Definition dt               : F := of_dec 1 100.       (* 0.01f  *)

(** The state before the first frame. *)
Definition init : World F :=
  let s1 := mkSphereGPU (make_float3 (of_dec 4 10) (of_dec 9 10) (of_dec 2 10)) in
  let s2 := mkSphereGPU (make_float3 (- of_dec 3 10) (of_dec 2 10) (of_dec 8 10)) in
  let one := mkQuat (of_int 1) (of_int 0) (of_int 0) (of_int 0) in
  mkWorld (of_int (-2)) (of_int 2) one one s1 s2 s1 s2.

(** The phase a frame runs in: the test of the [if] of the loop body. *)
Definition phase (s : World F) : Phase :=
  if x1 s <? contactThreshold then APPROACHING else MESHED.

(** [if(x1 < -1.01f){ x1+=0.01f; x2-=0.01f; } else enforce_mesh<<<1,1>>>(d1,d2);]
    The boolean tells whether the kernel was launched. *)
Definition gate (s : World F) : World F * bool :=
  if x1 s <? contactThreshold then
    (mkWorld (x1 s + approachStep) (x2 s - approachStep)
             (q1 s) (q2 s) (h1 s) (h2 s) (d1 s) (d2 s), false)
  else
    let '(a, b) := enforce_mesh (d1 s) (d2 s) in
    (mkWorld (x1 s) (x2 s) (q1 s) (q2 s) (h1 s) (h2 s) a b, true).

(** The two device-to-host copies and the two integrations. *)
Definition copy_and_integrate (s : World F) : World F :=
  let h1' := d1 s in
  let h2' := d2 s in
  mkWorld (x1 s) (x2 s)
          (integrate_quat (q1 s) (omega h1') dt)
          (integrate_quat (q2 s) (omega h2') dt)
          h1' h2' (d1 s) (d2 s).

(** One iteration of the [while] loop, as far as it writes the state. *)
Definition frame (s : World F) : World F :=
  copy_and_integrate (fst (gate s)).

(** Whether the frame that starts in [s] launches the kernel. *)
Definition launches (s : World F) : bool := snd (gate s).

(** The state after [n] frames. *)
Fixpoint run (n : nat) (s : World F) : World F :=
  match n with
  | O => s
  | S k => run k (frame s)
  end.

(** [n] successive launches of the kernel with nothing in between. *)
Fixpoint couple (n : nat) (ab : SphereGPU F * SphereGPU F)
  : SphereGPU F * SphereGPU F :=
  match n with
  | O => ab
  | S k => couple k (enforce_mesh (fst ab) (snd ab))
  end.

(** The quaternion that [integrate_quat] hands to [quat_norm]. *)
Definition to_normalize (q : Quat F) (w : float3 F) : Quat F :=
  quat_mul q (mkQuat (of_int 0) (vx w * dt) (vy w * dt) (vz w * dt)).

End Program.

(** ** The kernel by phases, and the spec's reading of it *)

Section Phases.
Context {F : Type} {A : Arith F}.
Local Open Scope fl_scope.

(** The relative surface velocity the kernel computes (its first three
    statements). *)
Definition vrel_of (a b : SphereGPU F) : float3 F :=
  let v1 := crossf (omega a) (make_float3 (of_int 1) (of_int 0) (of_int 0)) in
  let v2 := crossf (omega b) (make_float3 (of_int (-1)) (of_int 0) (of_int 0)) in
  make_float3 (vx v1 - vx v2) (vy v1 - vy v2) (vz v1 - vz v2).

(** The four correction statements. *)
Definition mesh_correct (a b : SphereGPU F) : SphereGPU F * SphereGPU F :=
  let vrel := vrel_of a b in
  let a := upd_y (fun w => w - vy vrel * softness) a in
  let a := upd_z (fun w => w - vz vrel * softness) a in
  let b := upd_y (fun w => w + vy vrel * softness) b in
  let b := upd_z (fun w => w + vz vrel * softness) b in
  (a, b).

(** The six damping statements. *)
Definition mesh_damp (a b : SphereGPU F) : SphereGPU F * SphereGPU F :=
  let a := upd_x (fun w => w * damping) a in
  let a := upd_y (fun w => w * damping) a in
  let a := upd_z (fun w => w * damping) a in
  let b := upd_x (fun w => w * damping) b in
  let b := upd_y (fun w => w * damping) b in
  let b := upd_z (fun w => w * damping) b in
  (a, b).

(** What the last six statements do to one component. *)
Definition clampW (w : F) : F := fminf (fmaxf w (- maxW)) maxW.

(** The six clamping statements. *)
Definition mesh_clamp (a b : SphereGPU F) : SphereGPU F * SphereGPU F :=
  let a := upd_x clampW a in
  let a := upd_y clampW a in
  let a := upd_z clampW a in
  let b := upd_x clampW b in
  let b := upd_y clampW b in
  let b := upd_z clampW b in
  (a, b).

(** Damping followed by the clamp, on one component. *)
Definition damp_clamp (w : F) : F := clampW (w * damping).

(** [n] times [f]. *)
Fixpoint iterate (n : nat) (f : F -> F) (w : F) : F :=
  match n with
  | O => w
  | S k => iterate k f (f w)
  end.

(** [|vrel.y| + |vrel.z|] for the current angular velocities. *)
Definition tangential (ab : SphereGPU F * SphereGPU F) : F :=
  let vrel := vrel_of (fst ab) (snd ab) in
  fabs (vy vrel) + fabs (vz vrel).

(** *** The coupling step in the words of the specification

    Surface velocities are cross products with the contact normals, the
    relative velocity is their difference, body A loses and body B gains
    [vrel.{y,z} * softness], and every component is damped.  All of it is
    computed from the angular velocities [wa], [wb] the step starts with.
    The result is what the clamp is then applied to. *)
Definition cross (u v : float3 F) : float3 F :=
  make_float3 (vy u * vz v - vz u * vy v)
              (vz u * vx v - vx u * vz v)
              (vx u * vy v - vy u * vx v).

Definition normalA : float3 F := make_float3 (of_int 1) (of_int 0) (of_int 0).
Definition normalB : float3 F := make_float3 (of_int (-1)) (of_int 0) (of_int 0).

Definition relative_velocity (wa wb : float3 F) : float3 F :=
  let vA := cross wa normalA in
  let vB := cross wb normalB in
  make_float3 (vx vA - vx vB) (vy vA - vy vB) (vz vA - vz vB).

Definition coupled_damped (wa wb : float3 F) : float3 F * float3 F :=
  let vrel := relative_velocity wa wb in
  (make_float3 (vx wa * of_dec 995 1000)
               ((vy wa - vy vrel * of_dec 5 100) * of_dec 995 1000)
               ((vz wa - vz vrel * of_dec 5 100) * of_dec 995 1000),
   make_float3 (vx wb * of_dec 995 1000)
               ((vy wb + vy vrel * of_dec 5 100) * of_dec 995 1000)
               ((vz wb + vz vrel * of_dec 5 100) * of_dec 995 1000)).

(** *** The integrator in the words of the specification *)

(** The pure-vector quaternion [(0, v)]. *)
Definition pure_quat (v : float3 F) : Quat F :=
  mkQuat (of_int 0) (vx v) (vy v) (vz v).

(** [w] scaled by the time step. *)
Definition scale_dt (w : float3 F) (h : F) : float3 F :=
  make_float3 (vx w * h) (vy w * h) (vz w * h).

(** Hamilton's product of [a1 + b1 i + c1 j + d1 k] and
    [a2 + b2 i + c2 j + d2 k], by components. *)
Definition hamilton (p q : Quat F) : Quat F :=
  let '(mkQuat a1 b1 c1 d1) := p in
  let '(mkQuat a2 b2 c2 d2) := q in
  mkQuat (a1 * a2 - b1 * b2 - c1 * c2 - d1 * d2)
         (a1 * b2 + b1 * a2 + c1 * d2 - d1 * c2)
         (a1 * c2 - b1 * d2 + c1 * a2 + d1 * b2)
         (a1 * d2 + b1 * c2 - c1 * b2 + d1 * a2).

(** The Euclidean norm. *)
Definition euclidean_norm (q : Quat F) : F :=
  fsqrt (qw q * qw q + qx q * qx q + qy q * qy q + qz q * qz q).

(** Every component divided by the Euclidean norm. *)
Definition normalize (q : Quat F) : Quat F :=
  mkQuat (qw q / euclidean_norm q) (qx q / euclidean_norm q)
         (qy q / euclidean_norm q) (qz q / euclidean_norm q).

(** *** Observations on a frame *)

(** The two divisors [n] that [quat_norm] computes during the frame that
    starts in [s]: the gate runs first, the integrator reads the device
    records. *)
Definition divisors (s : World F) : F * F :=
  let g := fst (gate s) in
  (quat_len (to_normalize (q1 g) (omega (d1 g))),
   quat_len (to_normalize (q2 g) (omega (d2 g)))).

(** [ok] on each of the first [n] states of the run from [s]; the state
    reached after them. *)
Fixpoint holds_for (ok : World F -> bool) (n : nat) (s : World F)
  : option (World F) :=
  match n with
  | O => Some s
  | S k => if ok s then holds_for ok k (frame s) else None
  end.

End Phases.

(** ** Rendering: the matrix, the HUD and the mesh *)

(** [float M[16]], by index: OpenGL reads it column by column. *)
Record Mat16 (F : Type) : Type := mkMat16 {
  m0 : F; m1 : F; m2 : F; m3 : F;
  m4 : F; m5 : F; m6 : F; m7 : F;
  m8 : F; m9 : F; m10 : F; m11 : F;
  m12 : F; m13 : F; m14 : F; m15 : F
}.

(** [struct Vert { float x,y,z,r,g,b; }]; the fields are [px], [py], [pz],
    [cr], [cg], [cb]. *)
Record Vert (F : Type) : Type := mkVert {
  px : F; py : F; pz : F; cr : F; cg : F; cb : F
}.

(** The two arrows of the HUD. *)
Inductive Spin : Type := CCW | CW.

(** What [makeToothedSphere] takes from [<cmath>]. *)
Class Trig (F : Type) : Type := {
  fsin : F -> F;
  fcos : F -> F;
  M_PI : F
}.

Section Rendering.
Context {F : Type} {A : Arith F}.
Local Open Scope fl_scope.

(** [void quat_to_mat(const Quat& q, float M[16])]: all sixteen entries are
    assigned, so the embedding returns the array. *)
Definition quat_to_mat (q : Quat F) : Mat16 F :=
  let xx := qx q * qx q in
  let yy := qy q * qy q in
  let zz := qz q * qz q in
  let xy := qx q * qy q in
  let xz := qx q * qz q in
  let yz := qy q * qz q in
  let wx := qw q * qx q in
  let wy := qw q * qy q in
  let wz := qw q * qz q in
  mkMat16
    (of_int 1 - of_int 2 * (yy + zz)) (of_int 2 * (xy + wz))
    (of_int 2 * (xz - wy)) (of_int 0)
    (of_int 2 * (xy - wz)) (of_int 1 - of_int 2 * (xx + zz))
    (of_int 2 * (yz + wx)) (of_int 0)
    (of_int 2 * (xz + wy)) (of_int 2 * (yz - wx))
    (of_int 1 - of_int 2 * (xx + yy)) (of_int 0)
    (of_int 0) (of_int 0) (of_int 0) (of_int 1).

(** The point that OpenGL sends [(x, y, z, 1)] to under the column-major
    matrix [M], before the division by the fourth coordinate. *)
Definition mat_apply (M : Mat16 F) (v : float3 F) : float3 F :=
  make_float3 (m0 M * vx v + m4 M * vy v + m8 M * vz v + m12 M)
              (m1 M * vx v + m5 M * vy v + m9 M * vz v + m13 M)
              (m2 M * vx v + m6 M * vy v + m10 M * vz v + m14 M).

(** The fourth coordinate of that point. *)
Definition mat_apply_w (M : Mat16 F) (v : float3 F) : F :=
  m3 M * vx v + m7 M * vy v + m11 M * vz v + m15 M.

(** The quaternion [-q] and the conjugate of [q]. *)
Definition quat_neg (q : Quat F) : Quat F :=
  mkQuat (- qw q) (- qx q) (- qy q) (- qz q).
Definition quat_conj (q : Quat F) : Quat F :=
  mkQuat (qw q) (- qx q) (- qy q) (- qz q).

(** The two values a HUD line prints for a body:
    [fabs(h.omega.z)] and [h.omega.z > 0 ? CCW : CW]. *)
Definition hud (h : SphereGPU F) : F * Spin :=
  (fabs (vz (omega h)), if of_int 0 <? vz (omega h) then CCW else CW).

(** *** [makeToothedSphere]

    The [int]s are integers; a division or a remainder by zero has no
    value.  The calls that hand the vertices to OpenGL are left out: the
    function is read as the vector [v] and the [count] it stores. *)

Context {T : Trig F}.

(** [(j % (seg/teeth)) < (seg/(teeth*2))] *)
Definition tooth (seg teeth j : Z) : option bool :=
  if (teeth =? 0)%Z then None
  else if (Z.quot seg teeth =? 0)%Z then None
  else Some (Z.rem j (Z.quot seg teeth) <? Z.quot seg (teeth * 2))%Z.

(** The lambda [emit]: one vertex at polar angle [p], on the meridian [t],
    in the shade [c]. *)
Definition emit (t c p : F) : Vert F :=
  mkVert (fsin p * fcos t) (fcos p) (fsin p * fsin t) c c c.

(** The body of the inner loop. *)
Definition column (seg rings teeth i j : Z) : option (list (Vert F)) :=
  let p0 := M_PI * of_int i / of_int rings in
  let p1 := M_PI * of_int (i + 1) / of_int rings in
  let t := of_int 2 * M_PI * of_int j / of_int seg in
  match tooth seg teeth j with
  | None => None
  | Some b =>
      let c := if b then of_dec 5 10 else of_dec 85 100 in
      Some [emit t c p0; emit t c p1]
  end.

(** [0, 1, ..., n-1]: the values a counter takes in [for(k=0;k<n;k++)]. *)
Definition upto (n : Z) : list Z := map Z.of_nat (seq 0 (Z.to_nat n)).

(** A loop whose body appends to [v] and may have no value. *)
Fixpoint for_each (ks : list Z) (body : Z -> option (list (Vert F)))
  : option (list (Vert F)) :=
  match ks with
  | [] => Some []
  | k :: rest =>
      match body k with
      | None => None
      | Some vs =>
          match for_each rest body with
          | None => None
          | Some ws => Some (vs ++ ws)
          end
      end
  end.

(** [GLuint makeToothedSphere(int seg, int rings, int teeth, int& count)]:
    the vertices pushed and the count. *)
Definition makeToothedSphere (seg rings teeth : Z)
  : option (list (Vert F) * Z) :=
  match for_each (upto rings)
          (fun i => for_each (upto (seg + 1))
                      (fun j => column seg rings teeth i j)) with
  | None => None
  | Some v => Some (v, Z.of_nat (length v))
  end.

End Rendering.

(** ** Single precision *)

Module Binary32.

Definition prec : Z := 24.
Definition emax : Z := 128.
Definition float : Type := spec_float.

Definition b32_of_int (z : Z) : float := binary_normalize prec emax z 0 false.

(** A decimal literal [n/d] with [n], [d] below [2^24]: both integers are
    floats, and their correctly rounded quotient is the float nearest to
    the literal. *)
Definition round_dec (n d : positive) : float :=
  SFdiv prec emax (b32_of_int (Zpos n)) (b32_of_int (Zpos d)).

(** The decimal literals of [main.cu], converted once, as the compiler
    does; [literal_rounds] below checks the table against [round_dec]. *)
Definition literal (n d : positive) : option float :=
  match n, d with
  | 5, 100 => Some (S754_finite false 13421773 (-28))    (* 0.05f  *)
  | 995, 1000 => Some (S754_finite false 16693330 (-24)) (* 0.995f *)
  | 50, 10 => Some (S754_finite false 10485760 (-21))    (* 5.0f   *)
  | 101, 100 => Some (S754_finite false 8472494 (-23))   (* 1.01f  *)
  | 1, 100 => Some (S754_finite false 10737418 (-30))    (* 0.01f  *)
  | 4, 10 => Some (S754_finite false 13421773 (-25))     (* 0.4f   *)
  | 9, 10 => Some (S754_finite false 15099494 (-24))     (* 0.9f   *)
  | 2, 10 => Some (S754_finite false 13421773 (-26))     (* 0.2f   *)
  | 3, 10 => Some (S754_finite false 10066330 (-25))     (* 0.3f   *)
  | 8, 10 => Some (S754_finite false 13421773 (-24))     (* 0.8f   *)
  | _, _ => None
  end%positive.

Definition b32_of_dec (n d : positive) : float :=
  match literal n d with
  | Some v => v
  | None => round_dec n d
  end.

Definition is_nan (a : float) : bool :=
  match a with S754_nan => true | _ => false end.

(** [fmaxf] and [fminf]: a NaN argument is dropped in favour of the other
    one. *)
Definition b32_fmaxf (a b : float) : float :=
  if is_nan a then b else if is_nan b then a
  else if SFltb a b then b else a.

Definition b32_fminf (a b : float) : float :=
  if is_nan a then b else if is_nan b then a
  else if SFltb b a then b else a.

#[export] Instance arith : Arith float := {|
  of_int := b32_of_int;
  of_dec := b32_of_dec;
  fneg := SFopp;
  fadd := SFadd prec emax;
  fsub := SFsub prec emax;
  fmul := SFmul prec emax;
  fdiv := SFdiv prec emax;
  fsqrt := SFsqrt prec emax;
  fabs := SFabs;
  fltb := SFltb;
  fmaxf := b32_fmaxf;
  fminf := b32_fminf
|}.

Definition f3 := float3 float.
Definition Sphere := SphereGPU float.
Definition Q32 := Quat float.
Definition W32 := World float.

(** [-5.0f <= r && r <= 5.0f] *)
Definition in_range (r : float) : bool :=
  SFleb (SFopp (b32_of_dec 50 10)) r && SFleb r (b32_of_dec 50 10).

(** [r] is [u] clamped to [[-5, 5]]: it lies in the interval, it is [u]
    when [u] does, and it is the bound that [u] passes otherwise. *)
Definition clamped (u r : float) : Prop :=
  in_range r = true
  /\ (in_range u = true -> r = u)
  /\ (SFltb u (SFopp (b32_of_dec 50 10)) = true -> r = SFopp (b32_of_dec 50 10))
  /\ (SFltb (b32_of_dec 50 10) u = true -> r = b32_of_dec 50 10).

Definition range3 (v : f3) : bool :=
  in_range (vx v) && in_range (vy v) && in_range (vz v).

Definition clamped3 (u r : f3) : Prop :=
  clamped (vx u) (vx r) /\ clamped (vy u) (vy r) /\ clamped (vz u) (vz r).

Definition is_zero (a : float) : bool :=
  match a with S754_zero _ => true | _ => false end.

(** The value of a float of the format, times [2^149], as an integer;
    nothing for infinities and NaN. *)
Definition scaled (a : float) : option Z :=
  match a with
  | S754_zero _ => Some 0%Z
  | S754_finite s m e =>
      Some ((if s then Zneg m else Zpos m) * 2 ^ (e + 149))%Z
  | _ => None
  end.

(** A finite float as a mantissa and an exponent, [m * 2^e]; zero is
    [0 * 2^0]. *)
Definition mant_exp (a : float) : option (Z * Z) :=
  match a with
  | S754_zero _ => Some (0, 0)%Z
  | S754_finite s m e => Some (if s then Zneg m else Zpos m, e)
  | _ => None
  end.

(** [(m * 2^(e - e0))^2], for [e0 <= e]. *)
Definition square_at (e0 : Z) (me : Z * Z) : Z :=
  let m := Z.shiftl (fst me) (snd me - e0) in (m * m)%Z.

(** The squared Euclidean norm of [q] as [t * 2^(2 * e0)], computed
    exactly; [e0] is the least exponent of the four components and is at
    most [0]. *)
Definition sumsq (q : Q32) : option (Z * Z) :=
  match mant_exp (qw q), mant_exp (qx q), mant_exp (qy q), mant_exp (qz q) with
  | Some a, Some b, Some c, Some d =>
      let e0 := Z.min (Z.min (snd a) (snd b)) (Z.min (snd c) (snd d)) in
      Some (square_at e0 a + square_at e0 b + square_at e0 c + square_at e0 d,
            e0)%Z
  | _, _, _, _ => None
  end.

(** The Euclidean norm of [q] is within [1e-5] of [1]:
    [(1 - 1e-5)^2 <= |q|^2 <= (1 + 1e-5)^2], over the integers, both sides
    multiplied by [10^10 * 2^(-2 * e0)]. *)
Definition unit_within_tol (q : Q32) : bool :=
  match sumsq q with
  | Some (t, e0) =>
      ((Z.shiftl (99999 * 99999) (- 2 * e0) <=? 100000 * 100000 * t)
       && (100000 * 100000 * t <=? Z.shiftl (100001 * 100001) (- 2 * e0)))%Z
  | None => false
  end.

(** The real number a finite float stands for; [0] for the others. *)
Definition B2R (a : float) : R :=
  match mant_exp a with
  | Some (m, e) => (IZR m * powerRZ 2 e)%R
  | None => 0%R
  end.

(** [|q|^2] as a real number. *)
Definition norm2R (q : Q32) : R :=
  (B2R (qw q) * B2R (qw q) + B2R (qx q) * B2R (qx q)
   + B2R (qy q) * B2R (qy q) + B2R (qz q) * B2R (qz q))%R.

(** Neither division of the frame that starts in [s] is by zero. *)
Definition divisors_nonzero (s : W32) : bool :=
  negb (is_zero (fst (divisors s))) && negb (is_zero (snd (divisors s))).

(** Both orientations are unit quaternions, up to the tolerance, after the
    frame that starts in [s]. *)
Definition units_after (s : W32) : bool :=
  unit_within_tol (q1 (frame s)) && unit_within_tol (q2 (frame s)).

Definition sphere (a b c : float) : Sphere := mkSphereGPU (make_float3 a b c).

(** The smallest positive float, [2^-149]. *)
Definition tiny : float := S754_finite false 1 (-149).

(** The two bounds of the clamp, [5.0f] and [-5.0f], as data. *)
Definition upper : float := S754_finite false 10485760 (-21).
Definition lower : float := S754_finite true 10485760 (-21).

(** The sum of two floats, times [2^149], computed exactly. *)
Definition exact_sum (a b : float) : option Z :=
  match scaled a, scaled b with
  | Some p, Some q => Some (p + q)%Z
  | _, _ => None
  end.

(** One frame together with the two observations on it; every
    intermediate value is computed once. *)
Definition audited_frame (s : W32) : bool * bool * W32 :=
  let g := fst (gate s) in
  let p1 := to_normalize (q1 g) (omega (d1 g)) in
  let p2 := to_normalize (q2 g) (omega (d2 g)) in
  let n1 := quat_len p1 in
  let n2 := quat_len p2 in
  let r1 := mkQuat (fdiv (qw p1) n1) (fdiv (qx p1) n1)
                   (fdiv (qy p1) n1) (fdiv (qz p1) n1) in
  let r2 := mkQuat (fdiv (qw p2) n2) (fdiv (qx p2) n2)
                   (fdiv (qy p2) n2) (fdiv (qz p2) n2) in
  (negb (is_zero n1) && negb (is_zero n2),
   unit_within_tol r1 && unit_within_tol r2,
   mkWorld (x1 g) (x2 g) r1 r2 (d1 g) (d2 g) (d1 g) (d2 g)).

(** [n] frames from [s], as long as [chk] accepts the observations of
    each of them. *)
Fixpoint audit (chk : bool -> bool -> bool) (n : nat) (s : W32)
  : option W32 :=
  match n with
  | O => Some s
  | S k =>
      let '(nz, un, s') := audited_frame s in
      if chk nz un then audit chk k s' else None
  end.

Definition nonzero_only (nz un : bool) : bool := nz.

Definition fin (s : bool) (m : positive) (e : Z) : float := S754_finite s m e.

(** The state after 9709 frames. *)
Definition checkpoint_9709 : W32 :=
  let wa := sphere (fin false 9569348 (-94)) (fin true 11204791 (-84))
                   (fin false 12352062 (-84)) in
  let wb := sphere (fin true 14354032 (-95)) (fin false 11230476 (-84))
                   (fin true 12328710 (-84)) in
  mkWorld (fin true 8388616 (-23)) (fin false 8388616 (-23))
    (mkQuat (fin false 12851361 (-41)) (fin false 12668234 (-25))
            (fin false 13347339 (-26)) (fin false 15173154 (-24)))
    (mkQuat (fin true 11306001 (-41)) (fin true 11606045 (-25))
            (fin false 15514268 (-24)) (fin false 10665223 (-26)))
    wa wb wa wb.

(** The state after 10819 frames. *)
Definition checkpoint_10819 : W32 :=
  let wa := sphere (fin false 9391708 (-102)) (fin true 12269359 (-92))
                   (fin false 13521128 (-92)) in
  let wb := sphere (fin true 14087551 (-103)) (fin false 12294559 (-92))
                   (fin true 13498194 (-92)) in
  mkWorld (fin true 8388616 (-23)) (fin false 8388616 (-23))
    (mkQuat (fin true 14968127 (-40)) (fin true 11975699 (-25))
            (fin true 12612996 (-26)) (fin true 14344641 (-24)))
    (mkQuat (fin false 9175508 (-39)) (fin false 13023571 (-25))
            (fin true 8704929 (-23)) (fin true 11966251 (-26)))
    wa wb wa wb.

(** Two bodies that spin against each other: the tangential angular
    velocities differ, the surface velocities at the contact agree. *)
Definition opposed_a : Sphere := sphere (b32_of_int 0) (b32_of_int 1) (b32_of_int 1).
Definition opposed_b : Sphere :=
  sphere (b32_of_int 0) (b32_of_int (-1)) (b32_of_int (-1)).

(** A body that turns at the smallest speed the format has, next to one
    at rest. *)
Definition creeping_a : Sphere := sphere (b32_of_int 0) (b32_of_int 0) tiny.
Definition creeping_b : Sphere := sphere (b32_of_int 0) (b32_of_int 0) (b32_of_int 0).

(** The state before the first frame, in single precision. *)
Definition init32 : W32 := init.

(** The test of the gate, as a flag. *)
Definition approaching (s : W32) : bool :=
  match phase s with APPROACHING => true | MESHED => false end.

(** [-1.01f <= x1] *)
Definition in_contact (s : W32) : bool :=
  SFleb (@contactThreshold float arith) (x1 s).

(** A world in contact. *)
Definition touching : W32 :=
  mkWorld (b32_of_int (-1)) (b32_of_int 1) (q1 init) (q2 init)
          (h1 init) (h2 init) (d1 init) (d2 init).

(** *** Observations for the rendering side *)

Definition all_nan : Q32 := mkQuat S754_nan S754_nan S754_nan S754_nan.

Definition has_nan (q : Q32) : bool :=
  is_nan (qw q) || is_nan (qx q) || is_nan (qy q) || is_nan (qz q).

(** An infinity or NaN. *)
Definition non_finite (a : float) : bool :=
  match a with
  | S754_infinity _ | S754_nan => true
  | _ => false
  end.

(** Each entry of the rotation block of [M] is NaN. *)
Definition rotation_nan (M : Mat16 float) : bool :=
  is_nan (m0 M) && is_nan (m1 M) && is_nan (m2 M)
  && is_nan (m4 M) && is_nan (m5 M) && is_nan (m6 M)
  && is_nan (m8 M) && is_nan (m9 M) && is_nan (m10 M).

(** The same float, bit for bit. *)
Definition same_float (a b : float) : bool :=
  match a, b with
  | S754_zero s, S754_zero s' => Bool.eqb s s'
  | S754_infinity s, S754_infinity s' => Bool.eqb s s'
  | S754_nan, S754_nan => true
  | S754_finite s m e, S754_finite s' m' e' =>
      Bool.eqb s s' && Pos.eqb m m' && Z.eqb e e'
  | _, _ => false
  end.

(** [x2 == -x1], and [x1 <= -1]: the centres are mirror images and at
    least two radii apart. *)
Definition mirrored (s : W32) : bool := same_float (x2 s) (SFopp (x1 s)).
Definition apart (s : W32) : bool := SFleb (x1 s) (b32_of_int (-1)).

(** A frame of the approach that starts mirrored and apart. *)
Definition closing (s : W32) : bool :=
  approaching s && mirrored s && apart s.

(** The reading of the HUD is a number between [0] and [5]. *)
Definition hud_in_range (h : Sphere) : bool :=
  SFleb (b32_of_int 0) (fst (hud h)) && SFleb (fst (hud h)) upper.

End Binary32.

(** ** Exact arithmetic *)

Module Exact.

Definition R_ltb (a b : R) : bool := if Rlt_dec a b then true else false.

#[export] Instance arith : Arith R := {|
  of_int := IZR;
  of_dec := fun n d => (IZR (Zpos n) / IZR (Zpos d))%R;
  fneg := Ropp;
  fadd := Rplus;
  fsub := Rminus;
  fmul := Rmult;
  fdiv := Rdiv;
  fsqrt := sqrt;
  fabs := Rabs;
  fltb := R_ltb;
  fmaxf := Rmax;
  fminf := Rmin
|}.

Definition sphere (a b c : R) : SphereGPU R := mkSphereGPU (make_float3 a b c).

(** The units [i], [j], [k] and the scalars. *)
Definition qi : Quat R := mkQuat 0%R 1%R 0%R 0%R.
Definition qj : Quat R := mkQuat 0%R 0%R 1%R 0%R.
Definition qk : Quat R := mkQuat 0%R 0%R 0%R 1%R.
Definition qscalar (a : R) : Quat R := mkQuat a 0%R 0%R 0%R.

(** [|q|^2] *)
Definition norm2 (q : Quat R) : R :=
  (qw q * qw q + qx q * qx q + qy q * qy q + qz q * qz q)%R.

(** [|w|^2] *)
Definition speed2 (w : float3 R) : R :=
  (vx w * vx w + vy w * vy w + vz w * vz w)%R.

(** What every frame keeps in exact arithmetic: unit orientations and
    angular velocities with a nonzero [x] component. *)
Definition sound (s : World R) : Prop :=
  norm2 (q1 s) = 1%R /\ norm2 (q2 s) = 1%R
  /\ vx (omega (d1 s)) <> 0%R /\ vx (omega (d2 s)) <> 0%R.

(** A body turning about [y] next to one at rest. *)
Definition turning : SphereGPU R := sphere 0%R 1%R 0%R.
Definition resting : SphereGPU R := sphere 0%R 0%R 0%R.

(** *** Rendering in exact arithmetic *)

#[export] Instance trig : Trig R := {|
  fsin := sin;
  fcos := cos;
  M_PI := PI
|}.

(** [q v q*] for the vector [v]: the rotation that the unit quaternion [q]
    stands for. *)
Definition quat_rotate (q : Quat R) (v : float3 R) : float3 R :=
  let r := quat_mul (quat_mul q (pure_quat v)) (quat_conj q) in
  make_float3 (qx r) (qy r) (qz r).

(** The determinant of the upper left 3x3 block. *)
Definition det3 (M : Mat16 R) : R :=
  (m0 M * (m5 M * m10 M - m9 M * m6 M)
   - m4 M * (m1 M * m10 M - m9 M * m2 M)
   + m8 M * (m1 M * m6 M - m5 M * m2 M))%R.

(** [w / |w|] as a pure quaternion. *)
Definition axis_quat (w : float3 R) : Quat R :=
  mkQuat 0%R (vx w / sqrt (speed2 w))%R (vy w / sqrt (speed2 w))%R
         (vz w / sqrt (speed2 w))%R.

(** A vertex on the unit sphere. *)
Definition on_sphere (v : Vert R) : Prop :=
  (px v * px v + py v * py v + pz v * pz v = 1)%R.

End Exact.

Unset Implicit Arguments.

(** * Facts that hold in every arithmetic *)

Section Generic.
Context {F : Type} {A : Arith F}.
Local Open Scope fl_scope.

(** The kernel is its three groups of statements, one after the other. *)
Lemma enforce_mesh_phases (a b : SphereGPU F) :
  enforce_mesh a b =
  let ab := mesh_correct a b in
  let ab := mesh_damp (fst ab) (snd ab) in
  mesh_clamp (fst ab) (snd ab).
Proof. reflexivity. Qed.

(** What the kernel leaves in each field, in terms of the values it was
    launched on. *)
Lemma enforce_mesh_components (a b : SphereGPU F) :
  let vrel := vrel_of a b in
  omega (fst (enforce_mesh a b)) =
    make_float3 (damp_clamp (vx (omega a)))
                (damp_clamp (vy (omega a) - vy vrel * softness))
                (damp_clamp (vz (omega a) - vz vrel * softness))
  /\ omega (snd (enforce_mesh a b)) =
    make_float3 (damp_clamp (vx (omega b)))
                (damp_clamp (vy (omega b) + vy vrel * softness))
                (damp_clamp (vz (omega b) + vz vrel * softness)).
Proof. split; reflexivity. Qed.

Lemma couple_succ (n : nat) (ab : SphereGPU F * SphereGPU F) :
  couple (S n) ab = enforce_mesh (fst (couple n ab)) (snd (couple n ab)).
Proof.
  revert ab. induction n as [|n IH]; intros ab; [reflexivity|].
  change (couple (S (S n)) ab)
    with (couple (S n) (enforce_mesh (fst ab) (snd ab))).
  now rewrite IH.
Qed.

Lemma iterate_succ (n : nat) (f : F -> F) (w : F) :
  iterate (S n) f w = f (iterate n f w).
Proof.
  revert w. induction n as [|n IH]; intros w; [reflexivity|].
  change (iterate (S (S n)) f w) with (iterate (S n) f (f w)).
  now rewrite IH.
Qed.

Lemma run_succ (n : nat) (s : World F) : run (S n) s = frame (run n s).
Proof.
  revert s. induction n as [|n IH]; intros s; [reflexivity|].
  change (run (S (S n)) s) with (run (S n) (frame s)).
  now rewrite IH.
Qed.

Lemma run_add (n m : nat) (s : World F) : run (n + m) s = run m (run n s).
Proof.
  revert s. induction n as [|n IH]; intros s; [reflexivity|].
  cbn [Nat.add run]. apply IH.
Qed.

(** The gate, by the outcome of its test. *)
Lemma gate_approaching (s : World F) :
  (x1 s <? contactThreshold) = true ->
  gate s = (mkWorld (x1 s + approachStep) (x2 s - approachStep)
                    (q1 s) (q2 s) (h1 s) (h2 s) (d1 s) (d2 s), false).
Proof. intros H. unfold gate. now rewrite H. Qed.

Lemma gate_meshed (s : World F) :
  (x1 s <? contactThreshold) = false ->
  gate s = (mkWorld (x1 s) (x2 s) (q1 s) (q2 s) (h1 s) (h2 s)
                    (fst (enforce_mesh (d1 s) (d2 s)))
                    (snd (enforce_mesh (d1 s) (d2 s))), true).
Proof.
  intros H. unfold gate. rewrite H.
  now destruct (enforce_mesh (d1 s) (d2 s)).
Qed.

Lemma launches_phase (s : World F) :
  launches s = match phase s with MESHED => true | APPROACHING => false end.
Proof.
  unfold launches, phase.
  destruct (x1 s <? contactThreshold) eqn:H.
  - now rewrite (gate_approaching s H).
  - now rewrite (gate_meshed s H).
Qed.

(** The integrations leave the positions and the device records alone. *)
Lemma frame_fields (s : World F) :
  x1 (frame s) = x1 (fst (gate s)) /\ x2 (frame s) = x2 (fst (gate s))
  /\ d1 (frame s) = d1 (fst (gate s)) /\ d2 (frame s) = d2 (fst (gate s))
  /\ h1 (frame s) = d1 (fst (gate s)) /\ h2 (frame s) = d2 (fst (gate s)).
Proof. repeat split. Qed.

Lemma frame_meshed (s : World F) :
  phase s = MESHED ->
  x1 (frame s) = x1 s /\ x2 (frame s) = x2 s
  /\ d1 (frame s) = fst (enforce_mesh (d1 s) (d2 s))
  /\ d2 (frame s) = snd (enforce_mesh (d1 s) (d2 s)).
Proof.
  unfold phase. destruct (x1 s <? contactThreshold) eqn:H; [discriminate|].
  intros _. unfold frame. rewrite (gate_meshed s H). repeat split.
Qed.

Lemma frame_approaching (s : World F) :
  phase s = APPROACHING ->
  x1 (frame s) = x1 s + approachStep /\ x2 (frame s) = x2 s - approachStep
  /\ d1 (frame s) = d1 s /\ d2 (frame s) = d2 s.
Proof.
  unfold phase. destruct (x1 s <? contactThreshold) eqn:H; [|discriminate].
  intros _. unfold frame. rewrite (gate_approaching s H). repeat split.
Qed.

(** Once in contact, always in contact: the test reads [x1], and a frame
    in contact does not write it. *)
Lemma meshed_run (s : World F) (n : nat) :
  phase s = MESHED ->
  phase (run n s) = MESHED /\ x1 (run n s) = x1 s /\ x2 (run n s) = x2 s.
Proof.
  intros H. induction n as [|n (IHp & IH1 & IH2)]; [now repeat split|].
  rewrite run_succ. destruct (frame_meshed _ IHp) as (E1 & E2 & _).
  assert (Hx : x1 (frame (run n s)) = x1 s) by congruence.
  repeat split; [|exact Hx|congruence].
  unfold phase in *. now rewrite Hx.
Qed.

(** The integrator is [quat_norm] after [quat_mul]. *)
Lemma integrate_quat_to_normalize (q : Quat F) (w : float3 F) :
  integrate_quat q w dt = quat_norm (to_normalize q w).
Proof. reflexivity. Qed.

(** C4.  For every orientation [q], angular velocity [w] and time step
    [h], [integrate_quat] stores [normalize (q (x) dq)], where [dq] is the
    pure-vector quaternion [(0, w.x*h, w.y*h, w.z*h)], [(x)] is Hamilton's
    product and [normalize] divides the four components by the Euclidean
    norm. *)
Theorem integrate_quat_spec (q : Quat F) (w : float3 F) (h : F) :
  integrate_quat q w h = normalize (hamilton q (pure_quat (scale_dt w h))).
Proof. destruct q as [a b c d]. reflexivity. Qed.

(** C7.  Over any number of successive launches, the [x] component of
    either angular velocity goes through the damping multiplication and
    the clamp and nothing else: it is [damp_clamp] iterated on its own
    starting value, and the correction statements leave it as it is. *)
Theorem x_component_decoupled (n : nat) (a b : SphereGPU F) :
  vx (omega (fst (couple n (a, b)))) = iterate n damp_clamp (vx (omega a))
  /\ vx (omega (snd (couple n (a, b)))) = iterate n damp_clamp (vx (omega b))
  /\ vx (omega (fst (mesh_correct a b))) = vx (omega a)
  /\ vx (omega (snd (mesh_correct a b))) = vx (omega b).
Proof.
  split; [|split; [|split; reflexivity]].
  - induction n as [|n IH]; [reflexivity|].
    rewrite couple_succ, iterate_succ, <- IH.
    now destruct (enforce_mesh_components (fst (couple n (a, b)))
                                          (snd (couple n (a, b)))) as [-> _].
  - induction n as [|n IH]; [reflexivity|].
    rewrite couple_succ, iterate_succ, <- IH.
    now destruct (enforce_mesh_components (fst (couple n (a, b)))
                                          (snd (couple n (a, b)))) as [_ ->].
Qed.

End Generic.

(** * Single precision *)

Section SinglePrecision.
Import Binary32.
Local Open Scope fl_scope.

(** ** The literals of the source, bit for bit *)

Lemma literals :
  (softness : float) = S754_finite false 13421773 (-28)      (* 0x3D4CCCCD *)
  /\ (damping : float) = S754_finite false 16693330 (-24)    (* 0x3F7EB852 *)
  /\ (maxW : float) = upper                                  (* 0x40A00000 *)
  /\ (- maxW : float) = lower
  /\ (contactThreshold : float) = S754_finite true 8472494 (-23) (* 0xBF8147AE *)
  /\ (approachStep : float) = S754_finite false 10737418 (-30).  (* 0x3C23D70A *)
Proof. repeat split. Qed.

(** The table of literals holds the correctly rounded quotients. *)
Lemma literal_rounds (n d : positive) (v : float) :
  literal n d = Some v -> v = round_dec n d.
Proof.
  intros H. unfold literal in H.
  repeat match type of H with
         | context [match ?p with _ => _ end] => destruct p; try discriminate H
         end.
  all: injection H as <-; vm_compute; reflexivity.
Qed.

Lemma b32_of_dec_rounds (n d : positive) : b32_of_dec n d = round_dec n d.
Proof.
  unfold b32_of_dec. destruct (literal n d) as [v|] eqn:E; [|reflexivity].
  now apply literal_rounds.
Qed.

(** The check of the norm on three quaternions: the identity, one that is
    too long and one that is not a number. *)
Example unit_within_tol_samples :
  unit_within_tol (q1 init32) = true
  /\ unit_within_tol (mkQuat (b32_of_int 1) (b32_of_dec 1 100)
                             (b32_of_int 0) (b32_of_int 0)) = false
  /\ unit_within_tol (mkQuat S754_nan (b32_of_int 0)
                             (b32_of_int 0) (b32_of_int 0)) = false.
Proof. repeat split. Qed.

(** ** Comparisons *)

Lemma SFcompare_antisym (a b : float) :
  SFcompare b a = option_map CompOpp (SFcompare a b).
Proof.
  destruct a as [sa|sa| |sa ma ea], b as [sb|sb| |sb mb eb]; simpl;
    try destruct sa; try destruct sb; try reflexivity;
    rewrite (Z.compare_antisym ea eb); destruct (ea ?= eb)%Z; simpl;
    try reflexivity; rewrite (Pos.compare_cont_antisym ma mb Eq); reflexivity.
Qed.

Lemma SFcompare_defined (a b : float) :
  is_nan a = false -> is_nan b = false -> SFcompare a b <> None.
Proof. destruct a, b; simpl; intros; congruence. Qed.

Lemma ltb_not_leb (a b : float) : SFltb a b = true -> SFleb b a = false.
Proof.
  unfold SFltb, SFleb. rewrite (SFcompare_antisym a b).
  destruct (SFcompare a b) as [[ | | ]|]; cbn; congruence.
Qed.

Lemma leb_not_ltb (a b : float) : SFleb b a = true -> SFltb a b = false.
Proof.
  intros H. destruct (SFltb a b) eqn:E; [|reflexivity].
  apply ltb_not_leb in E. congruence.
Qed.

Lemma not_ltb_leb (a b : float) :
  is_nan a = false -> is_nan b = false ->
  SFltb a b = false -> SFleb b a = true.
Proof.
  intros Ha Hb. generalize (SFcompare_defined a b Ha Hb).
  unfold SFltb, SFleb. rewrite (SFcompare_antisym a b).
  destruct (SFcompare a b) as [[ | | ]|]; cbn; congruence.
Qed.

Lemma below_not_above (u : float) :
  SFltb u lower = true -> SFltb upper u = false.
Proof.
  destruct u as [s|s| |s m e]; try destruct s; intros H;
    try reflexivity; discriminate H.
Qed.

(** ** The clamp *)

(** [fminf(fmaxf(u, -maxW), maxW)] clamps every float, NaN included:
    [fmaxf] drops a NaN in favour of [-maxW]. *)
Lemma clampW_clamped (u : float) : clamped u (clampW u).
Proof.
  unfold clamped, clampW, in_range, maxW. cbn [fminf fmaxf fneg of_dec arith].
  change (SFopp (b32_of_dec 50 10)) with lower.
  change (b32_of_dec 50 10) with upper.
  unfold b32_fmaxf. change (is_nan lower) with false. cbv iota.
  destruct (is_nan u) eqn:Hn.
  - destruct u; try discriminate. vm_compute.
    repeat split; intros; (reflexivity || discriminate).
  - destruct (SFltb u lower) eqn:Hlt.
    + change (b32_fminf lower upper) with lower.
      rewrite (ltb_not_leb _ _ Hlt), (below_not_above _ Hlt).
      repeat split; intros; (reflexivity || discriminate).
    + unfold b32_fminf. rewrite Hn. change (is_nan upper) with false. cbv iota.
      destruct (SFltb upper u) eqn:Hgt.
      * rewrite (ltb_not_leb _ _ Hgt), andb_false_r.
        repeat split; intros; (reflexivity || discriminate).
      * rewrite (not_ltb_leb u lower Hn eq_refl Hlt),
                (not_ltb_leb upper u eq_refl Hn Hgt).
        repeat split; intros; (reflexivity || discriminate).
Qed.

Lemma damp_clamp_clamped (w : float) : clamped (w * damping) (damp_clamp w).
Proof. apply clampW_clamped. Qed.

Lemma damp_clamp_in_range (w : float) : in_range (damp_clamp w) = true.
Proof. apply damp_clamp_clamped. Qed.


Lemma kernel_in_range (a b : Sphere) :
  range3 (omega (fst (enforce_mesh a b))) = true
  /\ range3 (omega (snd (enforce_mesh a b))) = true.
Proof.
  destruct (enforce_mesh_components a b) as [-> ->].
  unfold range3; cbn [vx vy vz].
  now rewrite !damp_clamp_in_range.
Qed.


(** C3.  After a launch of [enforce_mesh], on any two angular velocities
    whatever (infinities and NaN included), every component of both
    angular velocities lies in [[-5, 5]]. *)
Theorem clamp_invariant (a b : Sphere) :
  range3 (omega (fst (enforce_mesh a b))) = true
  /\ range3 (omega (snd (enforce_mesh a b))) = true.
Proof. apply kernel_in_range. Qed.

(** The same along the loop: after a frame in contact, the device records
    and the host copies are within the bounds. *)
Lemma frame_keeps_bounds (s : W32) :
  launches s = true ->
  range3 (omega (d1 (frame s))) = true /\ range3 (omega (d2 (frame s))) = true
  /\ range3 (omega (h1 (frame s))) = true /\ range3 (omega (h2 (frame s))) = true.
Proof.
  rewrite launches_phase. destruct (phase s) eqn:Hp; [discriminate|]. intros _.
  destruct (frame_meshed s Hp) as (_ & _ & E1 & E2).
  destruct (frame_fields s) as (_ & _ & F1 & F2 & G1 & G2).
  rewrite G1, G2, <- F1, <- F2, E1, E2.
  destruct (kernel_in_range (d1 s) (d2 s)); auto.
Qed.



End SinglePrecision.

(** * The render loop in single precision *)

Section SingleRun.
Import Binary32.
Local Open Scope fl_scope.

Lemma holds_for_spec (ok : W32 -> bool) (n : nat) (s s' : W32) :
  holds_for ok n s = Some s' ->
  s' = run n s /\ forall i, (i < n)%nat -> ok (run i s) = true.
Proof.
  revert s. induction n as [|n IH]; intros s; cbn [holds_for].
  - intros [= <-]. split; [reflexivity|]. intros i Hi. lia.
  - destruct (ok s) eqn:Hs; [|discriminate]. intros H.
    destruct (IH _ H) as [-> Hall]. split; [reflexivity|].
    intros [|i] Hi; [exact Hs|]. apply Hall. lia.
Qed.

Lemma audited_frame_eq (s : W32) :
  audited_frame s = (divisors_nonzero s, units_after s, frame s).
Proof.
  unfold audited_frame, divisors_nonzero, units_after, divisors, frame,
    copy_and_integrate, integrate_quat, quat_norm, to_normalize.
  cbv zeta. cbn [fst snd q1 q2 d1 d2 x1 x2 h1 h2 qw qx qy qz].
  reflexivity.
Qed.

Lemma audit_spec (chk : bool -> bool -> bool) (n : nat) (s s' : W32) :
  audit chk n s = Some s' ->
  s' = run n s
  /\ forall i, (i < n)%nat ->
       chk (divisors_nonzero (run i s)) (units_after (run i s)) = true.
Proof.
  revert s. induction n as [|n IH]; intros s; cbn [audit].
  - intros [= <-]. split; [reflexivity|]. intros i Hi. lia.
  - rewrite audited_frame_eq.
    destruct (chk (divisors_nonzero s) (units_after s)) eqn:Hs; [|discriminate].
    intros H. destruct (IH _ H) as [-> Hall]. split; [reflexivity|].
    intros [|i] Hi; [exact Hs|]. apply Hall. lia.
Qed.

(** ** The approach *)

Lemma approach_100 :
  exists s, holds_for approaching 100 init32 = Some s
            /\ phase s = MESHED /\ in_contact s = true.
Proof. eexists. split; [vm_compute; reflexivity|]. split; reflexivity. Qed.

(** C6, as the code has it.  From [x1 = -2], with the step [0.01f] and the
    threshold [-1.01f], the frames 1 to 100 are in the phase APPROACHING
    and each moves [x1] by [+0.01f] and [x2] by [-0.01f]; the state they
    leave has [-1.01f <= x1], so the phase is MESHED from frame 101 on. *)
Theorem approach_takes_100_frames :
  (forall k : nat, (k < 100)%nat ->
     phase (run k init32) = APPROACHING
     /\ x1 (run (S k) init32) = x1 (run k init32) + approachStep
     /\ x2 (run (S k) init32) = x2 (run k init32) - approachStep)
  /\ phase (run 100 init32) = MESHED
  /\ in_contact (run 100 init32) = true.
Proof.
  destruct approach_100 as (s & Hrun & Hp & Hc).
  destruct (holds_for_spec _ _ _ _ Hrun) as [-> Hall].
  split; [|split; assumption].
  intros k Hk. specialize (Hall k Hk). unfold approaching in Hall.
  destruct (phase (run k init32)) eqn:Hph; [|discriminate].
  rewrite run_succ.
  destruct (frame_approaching _ Hph) as (E1 & E2 & _). auto.
Qed.

Lemma approach_takes_100_frames_witness :
  (0 < 100)%nat
  /\ phase (run 0 init32) = APPROACHING
  /\ x1 (run 1 init32) = x1 (run 0 init32) + approachStep
  /\ x2 (run 1 init32) = x2 (run 0 init32) - approachStep.
Proof.
  split; [lia|]. apply (proj1 approach_takes_100_frames 0%nat). lia.
Defined.

(** Frame 100 starts in the state that 99 frames leave, and there [x1] is
    [-1.0100009], below the threshold [-1.01f = -1.0099999]: the frame is
    one more step of the approach. *)
Lemma approaching_at_frame_100 :
  phase (run 99 init32) = APPROACHING
  /\ in_contact (run 99 init32) = false
  /\ x1 (run 99 init32) = S754_finite true 8472502 (-23)
  /\ (contactThreshold : float) = S754_finite true 8472494 (-23).
Proof. vm_compute. repeat split. Qed.

(** ** Coupling without contraction *)

(** Two inputs on which a launch does not decrease [|vrel.y| + |vrel.z|]:
    bodies that spin against each other, with different tangential angular
    velocities and no relative surface velocity at all; and a body at the
    smallest speed of the format, which the correction and the damping
    both round back to where it was. *)
Lemma coupling_without_decrease :
  (vy (omega opposed_a) <> vy (omega opposed_b)
   /\ vz (omega opposed_a) <> vz (omega opposed_b)
   /\ tangential (opposed_a, opposed_b) = S754_zero false
   /\ tangential (enforce_mesh opposed_a opposed_b) = S754_zero false
   /\ SFltb (tangential (enforce_mesh opposed_a opposed_b))
            (tangential (opposed_a, opposed_b)) = false)
  /\ (vz (omega creeping_a) <> vz (omega creeping_b)
      /\ tangential (creeping_a, creeping_b) = tiny
      /\ enforce_mesh creeping_a creeping_b = (creeping_a, creeping_b)
      /\ SFltb (tangential (enforce_mesh creeping_a creeping_b))
               (tangential (creeping_a, creeping_b)) = false).
Proof. vm_compute. repeat split; discriminate. Qed.

Lemma creeping_forever (n : nat) :
  couple n (creeping_a, creeping_b) = (creeping_a, creeping_b).
Proof.
  induction n as [|n IH]; [reflexivity|].
  rewrite couple_succ, IH. reflexivity.
Qed.

(** ** The correction in single precision *)

(** On the angular velocities the program starts with, the four
    correction statements change the sum of the [y] components (as a real
    number: [36909874.5 * 2^-25] before, [36909874 * 2^-25] after) and
    the recomputed [vrel.z]. *)
Lemma correction_rounds :
  exact_sum (vy (omega (fst (mesh_correct (d1 init32) (d2 init32)))))
            (vy (omega (snd (mesh_correct (d1 init32) (d2 init32)))))
  <> exact_sum (vy (omega (d1 init32))) (vy (omega (d2 init32)))
  /\ vz (vrel_of (fst (mesh_correct (d1 init32) (d2 init32)))
                 (snd (mesh_correct (d1 init32) (d2 init32))))
     = S754_finite true 9227468 (-23)
  /\ vz (vrel_of (d1 init32) (d2 init32)) = S754_finite true 9227469 (-23).
Proof. vm_compute. repeat split. discriminate. Qed.

End SingleRun.

(** * Exact arithmetic *)

Section ExactArithmetic.
Import Exact.
Local Open Scope R_scope.

(** ** Hamilton's product *)

Lemma quat_mul_hamilton {F : Type} {A : Arith F} (p q : Quat F) :
  quat_mul p q = hamilton p q.
Proof. destruct p, q. reflexivity. Qed.

Lemma quat_eq (a b c d a' b' c' d' : R) :
  a = a' -> b = b' -> c = c' -> d = d' -> mkQuat a b c d = mkQuat a' b' c' d'.
Proof. now intros -> -> -> ->. Qed.

(** [i^2 = j^2 = k^2 = ijk = -1], and the product does not commute. *)
Lemma hamilton_units :
  hamilton qi qi = qscalar (-1) /\ hamilton qj qj = qscalar (-1)
  /\ hamilton qk qk = qscalar (-1)
  /\ hamilton (hamilton qi qj) qk = qscalar (-1)
  /\ hamilton qi qj = qk /\ hamilton qj qi <> qk.
Proof.
  repeat split; try (cbn; apply quat_eq; lra).
  cbn. intros H. apply (f_equal (@qz R)) in H. cbn in H. lra.
Qed.

Lemma hamilton_norm2 (p q : Quat R) :
  norm2 (hamilton p q) = norm2 p * norm2 q.
Proof. destruct p, q. unfold norm2. cbn. ring. Qed.

(** ** The coupling step *)

Lemma vrel_exact (a b : SphereGPU R) :
  vrel_of a b =
  make_float3 0 (vz (omega a) + vz (omega b)) (- (vy (omega a) + vy (omega b))).
Proof. unfold vrel_of, crossf; cbn. f_equal; ring. Qed.

Lemma clampW_exact (w : R) : clampW w = Rmin (Rmax w (-5)) 5.
Proof.
  unfold clampW, maxW; cbn. replace (50 / 10) with 5 by lra. reflexivity.
Qed.

(** The clamp is odd and does not stretch distances, so the sum of two
    clamped values is no larger than the sum of the values. *)
Lemma clamp_sum_contracts (u v : R) :
  Rabs (clampW u + clampW v) <= Rabs (u + v).
Proof.
  rewrite !clampW_exact. unfold Rmin, Rmax.
  repeat destruct Rle_dec; unfold Rabs; repeat destruct Rcase_abs; lra.
Qed.

Lemma clampW_nonzero (u : R) : u <> 0 -> clampW u <> 0.
Proof.
  rewrite clampW_exact. unfold Rmin, Rmax. repeat destruct Rle_dec; lra.
Qed.

Lemma tangential_exact (a b : SphereGPU R) :
  tangential (a, b) =
  Rabs (vz (omega a) + vz (omega b)) + Rabs (vy (omega a) + vy (omega b)).
Proof.
  unfold tangential. cbn [fst snd]. rewrite vrel_exact. cbn.
  now rewrite Rabs_Ropp.
Qed.

Lemma tangential_step (a b : SphereGPU R) :
  tangential (enforce_mesh a b) <= 995 / 1000 * tangential (a, b).
Proof.
  rewrite (surjective_pairing (enforce_mesh a b)), !tangential_exact.
  destruct (enforce_mesh_components a b) as [-> ->].
  rewrite vrel_exact. cbn [vx vy vz]. unfold damp_clamp.
  set (ay := vy (omega a)). set (az := vz (omega a)).
  set (by_ := vy (omega b)). set (bz := vz (omega b)).
  eapply Rle_trans.
  { apply Rplus_le_compat; apply clamp_sum_contracts. }
  change (@damping R arith) with (995 / 1000).
  cbn [fmul fadd fsub arith softness of_dec].
  replace ((az - - (ay + by_) * (5 / 100)) * (995 / 1000)
           + (bz + - (ay + by_) * (5 / 100)) * (995 / 1000))
    with (995 / 1000 * (az + bz)) by lra.
  replace ((ay - (az + bz) * (5 / 100)) * (995 / 1000)
           + (by_ + (az + bz) * (5 / 100)) * (995 / 1000))
    with (995 / 1000 * (ay + by_)) by lra.
  rewrite !Rabs_mult, (Rabs_pos_eq (995 / 1000)) by lra. lra.
Qed.

Lemma tangential_nonneg (ab : SphereGPU R * SphereGPU R) : 0 <= tangential ab.
Proof.
  destruct ab as [a b]. rewrite tangential_exact.
  generalize (Rabs_pos (vz (omega a) + vz (omega b)))
             (Rabs_pos (vy (omega a) + vy (omega b))). lra.
Qed.

Lemma tangential_couple_step (a b : SphereGPU R) (n : nat) :
  tangential (couple (S n) (a, b)) <= 995 / 1000 * tangential (couple n (a, b)).
Proof.
  rewrite couple_succ.
  rewrite (surjective_pairing (couple n (a, b))) at 3. apply tangential_step.
Qed.

(** Convergence: a geometric bound after [n] launches. *)
Lemma tangential_geometric (a b : SphereGPU R) (n : nat) :
  tangential (couple n (a, b)) <= (995 / 1000) ^ n * tangential (a, b).
Proof.
  induction n as [|n IH]; [cbn; lra|].
  generalize (tangential_couple_step a b n). cbn [pow].
  assert (0 <= 995 / 1000) by lra. nra.
Qed.

(** C2, in exact arithmetic.  For every pair of bodies and every number
    [n] of launches so far, if the relative tangential surface velocity is
    not zero ([0 < |vrel.y| + |vrel.z|]), the next launch strictly
    decreases [|vrel.y| + |vrel.z|], to at most [0.995] times its value. *)
Theorem coupling_contracts (a b : SphereGPU R) (n : nat) :
  0 < tangential (couple n (a, b)) ->
  tangential (couple (S n) (a, b)) < tangential (couple n (a, b))
  /\ tangential (couple (S n) (a, b))
     <= 995 / 1000 * tangential (couple n (a, b)).
Proof.
  intros Hpos. generalize (tangential_couple_step a b n). lra.
Qed.

Lemma turning_tangential : tangential (couple 0 (turning, resting)) = 1.
Proof.
  cbn [couple]. rewrite tangential_exact. cbn.
  rewrite !Rplus_0_r, Rabs_R0, Rabs_R1. lra.
Qed.

Lemma coupling_contracts_witness :
  0 < tangential (couple 0 (turning, resting))
  /\ tangential (couple 1 (turning, resting))
     < tangential (couple 0 (turning, resting)).
Proof.
  assert (H : 0 < tangential (couple 0 (turning, resting)))
    by (rewrite turning_tangential; lra).
  split; [exact H|]. exact (proj1 (coupling_contracts turning resting 0 H)).
Defined.

(** C10, in exact arithmetic.  For every pair of angular velocities the
    four correction statements keep [wA.y + wB.y] and [wA.z + wB.z], and
    with them the relative tangential surface velocity: recomputed from
    the corrected angular velocities, [vrel.y] and [vrel.z] are what they
    were. *)
Theorem correction_conserves (a b : SphereGPU R) :
  (vy (omega (fst (mesh_correct a b))) + vy (omega (snd (mesh_correct a b)))
   = vy (omega a) + vy (omega b))
  /\ (vz (omega (fst (mesh_correct a b))) + vz (omega (snd (mesh_correct a b)))
      = vz (omega a) + vz (omega b))
  /\ vy (vrel_of (fst (mesh_correct a b)) (snd (mesh_correct a b)))
     = vy (vrel_of a b)
  /\ vz (vrel_of (fst (mesh_correct a b)) (snd (mesh_correct a b)))
     = vz (vrel_of a b).
Proof.
  rewrite !vrel_exact. unfold mesh_correct. rewrite vrel_exact.
  cbn. repeat split; ring.
Qed.

End ExactArithmetic.

(** * The render loop in exact arithmetic

    What the specification says about the loop is what real numbers do:
    the approach takes 99 frames, no angular velocity ever reaches zero,
    and the orientations are unit quaternions after every frame. *)

Section ExactLoop.
Import Exact.
Local Open Scope R_scope.

Lemma phase_exact (s : World R) :
  phase s = if Rlt_dec (x1 s) (- (101 / 100)) then APPROACHING else MESHED.
Proof. unfold phase; cbn. unfold R_ltb. now destruct Rlt_dec. Qed.

Lemma exact_position (k : nat) :
  (k <= 99)%nat -> x1 (run k (@init R arith)) = -2 + IZR (Z.of_nat k) / 100.
Proof.
  induction k as [|k IH]; intros Hk.
  - cbn. lra.
  - rewrite run_succ. assert (Hk' : (k <= 99)%nat) by lia.
    specialize (IH Hk').
    assert (Hb : IZR (Z.of_nat k) <= 98) by (apply IZR_le; lia).
    assert (Hp : phase (run k (@init R arith)) = APPROACHING).
    { rewrite phase_exact, IH. destruct Rlt_dec; [reflexivity|lra]. }
    destruct (frame_approaching _ Hp) as (-> & _). rewrite IH.
    rewrite Nat2Z.inj_succ, succ_IZR. cbn. lra.
Qed.

(** In exact arithmetic the approach takes 99 frames: frame 100 is the
    first one in contact. *)
Lemma exact_approach_takes_99_frames :
  (forall k : nat, (k < 99)%nat -> phase (run k (@init R arith)) = APPROACHING)
  /\ phase (run 99 (@init R arith)) = MESHED.
Proof.
  split.
  - intros k Hk. rewrite phase_exact, exact_position by lia.
    assert (Hb : IZR (Z.of_nat k) <= 98) by (apply IZR_le; lia).
    destruct Rlt_dec; [reflexivity|lra].
  - rewrite phase_exact, exact_position by lia.
    change (IZR (Z.of_nat 99)) with 99.
    destruct Rlt_dec; [lra|reflexivity].
Qed.

Lemma quat_len_exact (p : Quat R) : quat_len p = sqrt (norm2 p).
Proof. reflexivity. Qed.

Lemma quat_norm_unit (p : Quat R) : 0 < norm2 p -> norm2 (quat_norm p) = 1.
Proof.
  destruct p as [a b c d]. unfold quat_norm, quat_len, norm2. cbn.
  set (t := a * a + b * b + c * c + d * d). intros Hp.
  assert (Hs : sqrt t * sqrt t = t) by (apply sqrt_sqrt; lra).
  assert (Hn : sqrt t <> 0) by (intros E; rewrite E in Hs; lra).
  replace (a / sqrt t * (a / sqrt t) + b / sqrt t * (b / sqrt t)
           + c / sqrt t * (c / sqrt t) + d / sqrt t * (d / sqrt t))
    with (t / (sqrt t * sqrt t)) by (unfold t; field; exact Hn).
  rewrite Hs. field. lra.
Qed.

Lemma to_normalize_norm2 (q : Quat R) (w : float3 R) :
  norm2 (to_normalize q w) = norm2 q * (speed2 w / 10000).
Proof.
  unfold to_normalize. rewrite quat_mul_hamilton, hamilton_norm2.
  unfold norm2, speed2. cbn. field.
Qed.

Lemma speed2_positive (w : float3 R) : vx w <> 0 -> 0 < speed2 w.
Proof. intros H. unfold speed2. nra. Qed.

Lemma sound_init : sound (@init R arith).
Proof. unfold sound, norm2. cbn. repeat split; lra. Qed.

Lemma gate_keeps_spin (s : World R) :
  vx (omega (d1 s)) <> 0 -> vx (omega (d2 s)) <> 0 ->
  vx (omega (d1 (fst (gate s)))) <> 0 /\ vx (omega (d2 (fst (gate s)))) <> 0
  /\ q1 (fst (gate s)) = q1 s /\ q2 (fst (gate s)) = q2 s.
Proof.
  intros H1 H2. destruct (fltb (x1 s) contactThreshold) eqn:E.
  - rewrite (gate_approaching s E). cbn. auto.
  - rewrite (gate_meshed s E). cbn [fst d1 d2 q1 q2].
    destruct (enforce_mesh_components (d1 s) (d2 s)) as [-> ->].
    cbn [vx]. unfold damp_clamp.
    repeat split; try apply clampW_nonzero; cbn; lra.
Qed.

Lemma sound_frame (s : World R) :
  sound s ->
  sound (frame s) /\ fst (divisors s) <> 0 /\ snd (divisors s) <> 0.
Proof.
  intros (N1 & N2 & W1 & W2).
  destruct (gate_keeps_spin s W1 W2) as (G1 & G2 & E1 & E2).
  assert (P1 : 0 < norm2 (to_normalize (q1 (fst (gate s)))
                                       (omega (d1 (fst (gate s)))))).
  { rewrite to_normalize_norm2, E1, N1.
    generalize (speed2_positive _ G1). lra. }
  assert (P2 : 0 < norm2 (to_normalize (q2 (fst (gate s)))
                                       (omega (d2 (fst (gate s)))))).
  { rewrite to_normalize_norm2, E2, N2.
    generalize (speed2_positive _ G2). lra. }
  split; [|split].
  - unfold sound, frame, copy_and_integrate. cbn [q1 q2 d1 d2].
    rewrite !integrate_quat_to_normalize.
    repeat split; auto using quat_norm_unit.
  - unfold divisors. cbn [fst]. rewrite quat_len_exact.
    intros E. apply sqrt_eq_0 in E; lra.
  - unfold divisors. cbn [snd]. rewrite quat_len_exact.
    intros E. apply sqrt_eq_0 in E; lra.
Qed.

Lemma sound_run (n : nat) : sound (run n (@init R arith)).
Proof.
  induction n as [|n IH]; [apply sound_init|].
  rewrite run_succ. now apply sound_frame.
Qed.

(** In exact arithmetic no frame divides by zero, and after every frame
    both orientations have norm one. *)
Lemma exact_orientations (n : nat) :
  fst (divisors (run n (@init R arith))) <> 0
  /\ snd (divisors (run n (@init R arith))) <> 0
  /\ norm2 (q1 (run (S n) (@init R arith))) = 1
  /\ norm2 (q2 (run (S n) (@init R arith))) = 1.
Proof.
  destruct (sound_frame _ (sound_run n)) as ((N1 & N2 & _) & D1 & D2).
  rewrite run_succ. auto.
Qed.

End ExactLoop.

(** * The check of the norm, in real numbers *)

Section NormCheck.
Import Binary32.
Local Open Scope R_scope.

Lemma IZR_pow2 (k : Z) : (0 <= k)%Z -> IZR (2 ^ k) = powerRZ 2 k.
Proof.
  intros Hk. rewrite <- (Z2Nat.id k Hk) at 1 2.
  rewrite <- pow_IZR, <- pow_powerRZ. reflexivity.
Qed.

Lemma powerRZ_2_pos (k : Z) : 0 < powerRZ 2 k.
Proof. apply powerRZ_lt. lra. Qed.

Lemma square_at_real (e0 m e : Z) :
  (e0 <= e)%Z ->
  IZR (square_at e0 (m, e)) * powerRZ 2 (2 * e0)
  = (IZR m * powerRZ 2 e) * (IZR m * powerRZ 2 e).
Proof.
  intros H. unfold square_at. cbn [fst snd].
  rewrite Z.shiftl_mul_pow2 by lia.
  rewrite !mult_IZR, IZR_pow2 by lia.
  replace (2 * e0)%Z with (e0 + e0)%Z by lia.
  replace e with ((e - e0) + e0)%Z at 3 4 by lia.
  rewrite !powerRZ_add by lra. ring.
Qed.

Lemma sumsq_real (q : Q32) (t e0 : Z) :
  sumsq q = Some (t, e0) -> IZR t * powerRZ 2 (2 * e0) = norm2R q.
Proof.
  unfold sumsq, norm2R, B2R.
  destruct (mant_exp (qw q)) as [[ma ea]|]; [|discriminate].
  destruct (mant_exp (qx q)) as [[mb eb]|]; [|discriminate].
  destruct (mant_exp (qy q)) as [[mc ec]|]; [|discriminate].
  destruct (mant_exp (qz q)) as [[md ed]|]; [|discriminate].
  cbn [fst snd]. intros [= <- <-].
  set (e0 := Z.min (Z.min ea eb) (Z.min ec ed)).
  rewrite !plus_IZR, !Rmult_plus_distr_r.
  rewrite !square_at_real by (unfold e0; lia). reflexivity.
Qed.

(** For finite components, one of which is below [2], the check is the
    inequality [(1 - 1e-5)^2 <= |q|^2 <= (1 + 1e-5)^2] between real
    numbers. *)
Lemma unit_within_tol_real (q : Q32) (t e0 : Z) :
  sumsq q = Some (t, e0) -> (e0 <= 0)%Z ->
  unit_within_tol q = true <->
  (99999 / 100000) * (99999 / 100000) <= norm2R q
  /\ norm2R q <= (100001 / 100000) * (100001 / 100000).
Proof.
  intros Hs He. rewrite <- (sumsq_real q t e0 Hs).
  unfold unit_within_tol. rewrite Hs.
  rewrite andb_true_iff, !Z.leb_le, !Z.shiftl_mul_pow2 by lia.
  assert (Hp := powerRZ_2_pos (2 * e0)).
  assert (Hk : IZR (2 ^ (-2 * e0)) * powerRZ 2 (2 * e0) = 1).
  { rewrite IZR_pow2 by lia. rewrite <- powerRZ_add by lra.
    replace (-2 * e0 + 2 * e0)%Z with 0%Z by lia. reflexivity. }
  set (P := powerRZ 2 (2 * e0)) in *. set (K := IZR (2 ^ (-2 * e0))) in *.
  assert (HK : 0 < K) by (apply Rmult_lt_reg_r with P; lra).
  split.
  - intros [H1 H2]. apply IZR_le in H1, H2.
    rewrite !mult_IZR in H1, H2. fold K in H1, H2.
    split.
    + apply Rmult_le_reg_r with (K * (100000 * 100000)); [lra|].
      replace (IZR t * P * (K * (100000 * 100000)))
        with (100000 * 100000 * IZR t * (K * P)) by ring.
      rewrite Hk. lra.
    + apply Rmult_le_reg_r with (K * (100000 * 100000)); [lra|].
      replace (IZR t * P * (K * (100000 * 100000)))
        with (100000 * 100000 * IZR t * (K * P)) by ring.
      rewrite Hk. lra.
  - intros [H1 H2].
    apply Rmult_le_compat_r with (r := K * (100000 * 100000)) in H1, H2; try lra.
    replace (IZR t * P * (K * (100000 * 100000)))
      with (100000 * 100000 * IZR t * (K * P)) in H1, H2 by ring.
    rewrite Hk in H1, H2.
    split; apply le_IZR; rewrite !mult_IZR; fold K; lra.
Qed.

End NormCheck.

(** * The long run in single precision

    In contact the damping multiplies every angular velocity by [0.995f]
    in each frame, so the speeds fall through the whole exponent range of
    the format.  The squares that [quat_norm] adds up leave the normal
    range first: they lose bits, and then they are zero. *)

Section LongRun.
Import Binary32.
Local Open Scope Z_scope.

(** 9709 frames from the start: no division by zero, and unit
    orientations after each of them. *)
Lemma frames_to_9709 :
  audit andb (Z.to_nat 9709) init32 = Some checkpoint_9709.
Proof. vm_cast_no_check (eq_refl (Some checkpoint_9709)). Qed.

(** 1110 more frames: no division by zero. *)
Lemma frames_to_10819 :
  audit nonzero_only (Z.to_nat 1110) checkpoint_9709 = Some checkpoint_10819.
Proof. vm_cast_no_check (eq_refl (Some checkpoint_10819)). Qed.

Lemma audit_after (chk : bool -> bool -> bool) (m n : nat) (s0 s s' : W32) :
  run m s0 = s -> audit chk n s = Some s' ->
  run (m + n) s0 = s'
  /\ forall i, (m <= i < m + n)%nat ->
       chk (divisors_nonzero (run i s0)) (units_after (run i s0)) = true.
Proof.
  intros Hm Ha. destruct (audit_spec _ _ _ _ Ha) as [E Hall]. split.
  - rewrite run_add, Hm. symmetry. exact E.
  - intros i Hi. replace i with (m + (i - m))%nat by lia.
    rewrite run_add, Hm. apply Hall. lia.
Qed.

Lemma nonzero_only_true (a b : bool) : nonzero_only a b = true -> a = true.
Proof. intros H. exact H. Qed.

Lemma run_9709 : run (Z.to_nat 9709) init32 = checkpoint_9709.
Proof.
  destruct (audit_after andb 0 _ init32 _ _ eq_refl frames_to_9709) as [E _].
  exact E.
Qed.

Lemma run_10819 : run (Z.to_nat 10819) init32 = checkpoint_10819.
Proof.
  destruct (audit_after _ _ _ _ _ _ run_9709 frames_to_10819) as [E _].
  replace (Z.to_nat 10819) with (Z.to_nat 9709 + Z.to_nat 1110)%nat by lia.
  exact E.
Qed.

Lemma healthy_9709_frames (n : nat) :
  Z.of_nat n < 9709 ->
  divisors_nonzero (run n init32) = true /\ units_after (run n init32) = true.
Proof.
  intros Hn.
  destruct (audit_after andb 0 _ init32 _ _ eq_refl frames_to_9709) as [_ Hall].
  apply andb_true_iff. apply Hall. lia.
Qed.

(** C5, as the code has it.  In each of the first 10819 frames, for both
    bodies, the divisor that [quat_norm] computes is not zero. *)
Theorem divisors_nonzero_10819_frames (n : nat) :
  Z.of_nat n < 10819 -> divisors_nonzero (run n init32) = true.
Proof.
  intros Hn. destruct (Z_lt_le_dec (Z.of_nat n) 9709) as [Hlt | Hge].
  - apply (healthy_9709_frames n Hlt).
  - destruct (audit_after _ _ _ _ _ _ run_9709 frames_to_10819) as [_ Hall].
    apply nonzero_only_true with (b := units_after (run n init32)).
    apply Hall. lia.
Qed.

Lemma divisors_nonzero_10819_frames_witness :
  Z.of_nat 0 < 10819 /\ divisors_nonzero (run 0 init32) = true.
Proof.
  split; [reflexivity|]. apply (divisors_nonzero_10819_frames 0). reflexivity.
Defined.

(** Frame 10820: both angular velocities are still nonzero (about
    [2^-68]), the quaternion handed to [quat_norm] for the left body has
    components of about [2^-75], their squares round to zero, the divisor
    is [+0], and the orientation that is stored is made of infinities. *)
Lemma division_by_zero_in_frame_10820 :
  divisors_nonzero (run (Z.to_nat 10819) init32) = false
  /\ fst (divisors (run (Z.to_nat 10819) init32)) = S754_zero false
  /\ is_zero (vx (omega (d1 (run (Z.to_nat 10819) init32)))) = false
  /\ to_normalize (q1 checkpoint_10819)
                  (omega (fst (enforce_mesh (d1 checkpoint_10819)
                                            (d2 checkpoint_10819))))
     = mkQuat (fin false 11791996 (-99)) (fin true 16598678 (-99))
              (fin false 12273719 (-100)) (fin false 11159100 (-100))
  /\ q1 (run (Z.to_nat 10820) init32)
     = mkQuat (S754_infinity false) (S754_infinity true)
              (S754_infinity false) (S754_infinity false).
Proof.
  replace (Z.to_nat 10820) with (S (Z.to_nat 10819)) by lia.
  rewrite run_succ, run_10819. vm_compute. repeat split.
Qed.




(** The same in real numbers: after frame 9710 the squared norm of the
    right body's orientation is not between [(1 - 1e-5)^2] and
    [(1 + 1e-5)^2]. *)
Lemma right_body_norm_off :
  ~ ((99999 / 100000) * (99999 / 100000)
       <= norm2R (q2 (run (Z.to_nat 9710) init32))
     /\ norm2R (q2 (run (Z.to_nat 9710) init32))
        <= (100001 / 100000) * (100001 / 100000))%R.
Proof.
  replace (Z.to_nat 9710) with (S (Z.to_nat 9709)) by lia.
  rewrite run_succ, run_9709.
  assert (Hs : sumsq (q2 (frame checkpoint_9709))
               = Some (4503722503899617, -26)) by (vm_compute; reflexivity).
  intros H. apply (unit_within_tol_real _ _ _ Hs) in H; [|lia].
  revert H. vm_compute. discriminate.
Qed.

End LongRun.

(** * The mesh generator *)

Section Mesh.
Context {F : Type} {A : Arith F} {T : Trig F}.
Local Open Scope Z_scope.

Lemma upto_length (n : Z) : Z.of_nat (length (upto n)) = Z.max 0 n.
Proof. unfold upto. rewrite length_map, length_seq. lia. Qed.

Lemma upto_in (n k : Z) : In k (upto n) <-> 0 <= k < n.
Proof.
  unfold upto. rewrite in_map_iff. split.
  - intros (i & <- & Hi). apply in_seq in Hi. lia.
  - intros Hk. exists (Z.to_nat k). split; [lia|]. apply in_seq. lia.
Qed.

Lemma upto_nil (n : Z) : upto n = [] <-> n <= 0.
Proof.
  split.
  - intros E. generalize (upto_length n). rewrite E. cbn. lia.
  - intros Hn. unfold upto. replace (Z.to_nat n) with 0%nat by lia. reflexivity.
Qed.

(** A loop has a value exactly when every pass has one. *)
Lemma for_each_some (ks : list Z) (body : Z -> option (list (Vert F))) :
  for_each ks body <> None <-> forall k, In k ks -> body k <> None.
Proof.
  induction ks as [|k ks IH]; cbn [for_each].
  - split; [intros _ k []|discriminate].
  - destruct (body k) as [vs|] eqn:Ek.
    + destruct (for_each ks body) as [ws|] eqn:Er.
      * split; [|discriminate]. intros _ k' [<-|Hk]; [congruence|].
        apply IH; [discriminate|exact Hk].
      * split; [congruence|]. intros H. exfalso.
        apply (proj2 IH); [|reflexivity]. intros k' Hk. apply H. now right.
    + split; [congruence|]. intros H. exfalso. apply (H k); [now left|exact Ek].
Qed.

(** If every pass pushes [c] vertices, the loop pushes [c] times the
    number of passes. *)
Lemma for_each_length (c : nat) (ks : list Z)
      (body : Z -> option (list (Vert F))) (v : list (Vert F)) :
  (forall k vs, In k ks -> body k = Some vs -> length vs = c) ->
  for_each ks body = Some v -> length v = (c * length ks)%nat.
Proof.
  revert v. induction ks as [|k ks IH]; intros v Hc; cbn [for_each].
  - intros [= <-]. cbn. lia.
  - destruct (body k) as [vs|] eqn:Ek; [|discriminate].
    destruct (for_each ks body) as [ws|] eqn:Er; [|discriminate].
    intros [= <-]. rewrite length_app, (Hc k vs (or_introl eq_refl) Ek).
    rewrite (IH ws); [cbn; lia| |reflexivity].
    intros k' vs' Hk. apply Hc. now right.
Qed.

(** What holds of every vertex of every pass holds of every vertex of the
    loop. *)
Lemma for_each_forall (P : Vert F -> Prop) (ks : list Z)
      (body : Z -> option (list (Vert F))) (v : list (Vert F)) :
  (forall k vs, In k ks -> body k = Some vs -> Forall P vs) ->
  for_each ks body = Some v -> Forall P v.
Proof.
  revert v. induction ks as [|k ks IH]; intros v Hc; cbn [for_each].
  - intros [= <-]. constructor.
  - destruct (body k) as [vs|] eqn:Ek; [|discriminate].
    destruct (for_each ks body) as [ws|] eqn:Er; [|discriminate].
    intros [= <-]. apply Forall_app. split.
    + apply (Hc k); [now left|exact Ek].
    + apply IH; [|reflexivity]. intros k' vs' Hk. apply Hc. now right.
Qed.

Lemma tooth_none (seg teeth j : Z) :
  tooth seg teeth j = None <-> teeth = 0 \/ Z.quot seg teeth = 0.
Proof.
  unfold tooth. destruct (Z.eqb_spec teeth 0) as [E|E]; [tauto|].
  destruct (Z.eqb_spec (Z.quot seg teeth) 0) as [E'|E']; [tauto|].
  split; [discriminate|tauto].
Qed.

Lemma column_none (seg rings teeth i j : Z) :
  column seg rings teeth i j = None <-> teeth = 0 \/ Z.quot seg teeth = 0.
Proof.
  rewrite <- (tooth_none seg teeth j). unfold column.
  destruct (tooth seg teeth j); split; congruence.
Qed.

Lemma column_length (seg rings teeth i j : Z) (vs : list (Vert F)) :
  column seg rings teeth i j = Some vs -> length vs = 2%nat.
Proof.
  unfold column. destruct (tooth seg teeth j); [|discriminate].
  now intros [= <-].
Qed.



(** X3.  Every vertex is gray, in one of the two shades [0.5f] (on a
    tooth) and [0.85f]. *)
Theorem makeToothedSphere_shades (seg rings teeth : Z) :
  match makeToothedSphere (F:=F) seg rings teeth with
  | Some (v, _) =>
      Forall (fun x => cr x = cg x /\ cg x = cb x
                       /\ (cr x = of_dec 5 10 \/ cr x = of_dec 85 100)) v
  | None => True
  end.
Proof.
  unfold makeToothedSphere.
  destruct (for_each (upto rings) _) as [v|] eqn:E; [|exact I].
  refine (for_each_forall _ _ _ _ _ E).
  intros i vs _ Hi. refine (for_each_forall _ _ _ _ _ Hi).
  intros j ws _. unfold column.
  destruct (tooth seg teeth j) as [[|]|]; [| |discriminate];
    intros [= <-]; repeat (constructor; [cbn; auto|]); constructor.
Qed.

(** X4.  For a positive number of teeth that is at most [seg], the teeth
    repeat along a ring with the period [seg / teeth], and a column is on a
    tooth when its place in the period is below [seg / (2 * teeth)]. *)
Theorem tooth_periodic (seg teeth j : Z) :
  0 < teeth <= seg -> 0 <= j ->
  tooth seg teeth (j + seg / teeth) = tooth seg teeth j
  /\ tooth seg teeth j = Some (j mod (seg / teeth) <? seg / (2 * teeth)).
Proof.
  intros Ht Hj.
  assert (Hq : Z.quot seg teeth = seg / teeth) by (apply Z.quot_div_nonneg; lia).
  assert (Hq2 : Z.quot seg (teeth * 2) = seg / (2 * teeth)).
  { rewrite Z.quot_div_nonneg by lia. f_equal. lia. }
  assert (Hp : 0 < seg / teeth) by (apply Z.div_str_pos; lia).
  unfold tooth. rewrite Hq, Hq2.
  destruct (Z.eqb_spec teeth 0) as [E|_]; [lia|].
  destruct (Z.eqb_spec (seg / teeth) 0) as [E|_]; [lia|].
  rewrite !Z.rem_mod_nonneg by lia.
  split; [|reflexivity].
  rewrite <- (Z.mul_1_l (seg / teeth)) at 1.
  now rewrite Z.mod_add by lia.
Qed.

Lemma tooth_periodic_witness :
  0 < 16 <= 96 /\ 0 <= 5
  /\ tooth 96 16 (5 + 96 / 16) = tooth 96 16 5
  /\ tooth 96 16 5 = Some (5 mod (96 / 16) <? 96 / (2 * 16)).
Proof.
  split; [lia|]. split; [lia|]. apply (tooth_periodic 96 16 5); lia.
Defined.

End Mesh.

(** * Rendering in exact arithmetic *)

Section ExactRendering.
Import Exact.
Local Open Scope R_scope.

(** X5.  In exact arithmetic every vertex that [makeToothedSphere]
    pushes lies on the unit sphere. *)
Theorem makeToothedSphere_on_sphere (seg rings teeth : Z) :
  match makeToothedSphere (F:=R) seg rings teeth with
  | Some (v, _) => Forall on_sphere v
  | None => True
  end.
Proof.
  unfold makeToothedSphere.
  destruct (for_each (upto rings) _) as [v|] eqn:E; [|exact I].
  refine (for_each_forall _ _ _ _ _ E).
  intros i vs _ Hi. refine (for_each_forall _ _ _ _ _ Hi).
  intros j ws _. unfold column.
  destruct (tooth seg teeth j) as [b|]; [|discriminate].
  intros [= <-].
  assert (Hs : forall t c p, on_sphere (emit t c p)).
  { intros t c p. unfold on_sphere, emit. cbn.
    generalize (sin2_cos2 p) (sin2_cos2 t). unfold Rsqr. nra. }
  repeat (constructor; [apply Hs|]). constructor.
Qed.

(** ** The matrix of a quaternion *)

(** X6.  In exact arithmetic, for a unit quaternion [q], the matrix that
    [quat_to_mat] writes sends every point [v] to [q v q*], read column by
    column as OpenGL does; it does not translate and leaves the fourth
    coordinate at [1]. *)
Theorem quat_to_mat_rotates (q : Quat R) (v : float3 R) :
  norm2 q = 1 ->
  mat_apply (quat_to_mat q) v = quat_rotate q v
  /\ mat_apply_w (quat_to_mat q) v = 1.
Proof.
  destruct q as [w x y z], v as [a b c]. unfold norm2. cbn [qw qx qy qz].
  intros H. split.
  - unfold mat_apply, quat_rotate, quat_to_mat, quat_mul, quat_conj, pure_quat.
    cbn. f_equal;
      [ replace (1 - 2 * (y * y + z * z)) with (w * w + x * x - y * y - z * z) by lra
      | replace (1 - 2 * (x * x + z * z)) with (w * w - x * x + y * y - z * z) by lra
      | replace (1 - 2 * (x * x + y * y)) with (w * w - x * x - y * y + z * z) by lra ];
      ring.
  - unfold mat_apply_w, quat_to_mat. cbn. ring.
Qed.

Lemma quat_to_mat_rotates_witness :
  norm2 qi = 1
  /\ mat_apply (quat_to_mat qi) (make_float3 0 1 0) = quat_rotate qi (make_float3 0 1 0)
  /\ mat_apply_w (quat_to_mat qi) (make_float3 0 1 0) = 1.
Proof.
  assert (H : norm2 qi = 1) by (unfold norm2; cbn; lra).
  split; [exact H|]. exact (quat_to_mat_rotates qi (make_float3 0 1 0) H).
Defined.

(** X7.  In exact arithmetic, for a unit quaternion, the matrix is a
    rotation: it keeps the length of every vector and its determinant
    is [1]. *)
Theorem quat_to_mat_rotation (q : Quat R) (v : float3 R) :
  norm2 q = 1 ->
  speed2 (mat_apply (quat_to_mat q) v) = speed2 v
  /\ det3 (quat_to_mat q) = 1.
Proof.
  destruct q as [w x y z], v as [a b c]. unfold norm2. cbn [qw qx qy qz].
  intros H.
  assert (E0 : 1 - 2 * (y * y + z * z) = w * w + x * x - y * y - z * z) by lra.
  assert (E5 : 1 - 2 * (x * x + z * z) = w * w - x * x + y * y - z * z) by lra.
  assert (E10 : 1 - 2 * (x * x + y * y) = w * w - x * x - y * y + z * z) by lra.
  set (n := w * w + x * x + y * y + z * z) in H.
  split.
  - unfold speed2, mat_apply, quat_to_mat. cbn. rewrite E0, E5, E10.
    transitivity (n * n * (a * a + b * b + c * c)); [unfold n; ring|].
    rewrite H. ring.
  - unfold det3, quat_to_mat. cbn. rewrite E0, E5, E10.
    transitivity (n * n * n); [unfold n; ring|]. rewrite H. ring.
Qed.

Lemma quat_to_mat_rotation_witness :
  norm2 qi = 1
  /\ speed2 (mat_apply (quat_to_mat qi) (make_float3 0 1 0))
     = speed2 (make_float3 0 1 0)
  /\ det3 (quat_to_mat qi) = 1.
Proof.
  assert (H : norm2 qi = 1) by (unfold norm2; cbn; lra).
  split; [exact H|]. exact (quat_to_mat_rotation qi (make_float3 0 1 0) H).
Defined.

Lemma mat_eq (a0 a1 a2 a3 a4 a5 a6 a7 a8 a9 a10 a11 a12 a13 a14 a15
                b0 b1 b2 b3 b4 b5 b6 b7 b8 b9 b10 b11 b12 b13 b14 b15 : R) :
  a0 = b0 -> a1 = b1 -> a2 = b2 -> a3 = b3 -> a4 = b4 -> a5 = b5 ->
  a6 = b6 -> a7 = b7 -> a8 = b8 -> a9 = b9 -> a10 = b10 -> a11 = b11 ->
  a12 = b12 -> a13 = b13 -> a14 = b14 -> a15 = b15 ->
  mkMat16 a0 a1 a2 a3 a4 a5 a6 a7 a8 a9 a10 a11 a12 a13 a14 a15
  = mkMat16 b0 b1 b2 b3 b4 b5 b6 b7 b8 b9 b10 b11 b12 b13 b14 b15.
Proof. intros; subst; reflexivity. Qed.

Lemma quat_to_mat_neg_exact (q : Quat R) :
  quat_to_mat (quat_neg q) = quat_to_mat q.
Proof.
  destruct q as [w x y z]. unfold quat_to_mat, quat_neg. cbn.
  apply mat_eq; ring.
Qed.

(** ** The integrator *)

(** X8.  In exact arithmetic [quat_mul] is associative, has
    [(1,0,0,0)] as unit on both sides, and multiplies norms. *)
Theorem quat_mul_algebra (p q r : Quat R) :
  quat_mul (quat_mul p q) r = quat_mul p (quat_mul q r)
  /\ quat_mul (qscalar 1) p = p /\ quat_mul p (qscalar 1) = p
  /\ norm2 (quat_mul p q) = norm2 p * norm2 q.
Proof.
  destruct p as [a b c d], q as [a' b' c' d'], r as [a'' b'' c'' d''].
  unfold quat_mul, qscalar, norm2. cbn.
  repeat split; try (apply quat_eq; ring). ring.
Qed.

Lemma axis_quat_unit (w : float3 R) : 0 < speed2 w -> norm2 (axis_quat w) = 1.
Proof.
  intros Hw. unfold axis_quat, norm2. cbn [qw qx qy qz].
  assert (Hs : sqrt (speed2 w) * sqrt (speed2 w) = speed2 w)
    by (apply sqrt_sqrt; lra).
  assert (Hn : sqrt (speed2 w) <> 0) by (intros E; rewrite E in Hs; lra).
  set (r := sqrt (speed2 w)) in *.
  transitivity (speed2 w / (r * r)); [unfold speed2; field; exact Hn|].
  rewrite Hs. field. lra.
Qed.

(** What [integrate_quat] computes for a unit orientation. *)
Lemma integrate_quat_axis (q : Quat R) (w : float3 R) (h : R) :
  norm2 q = 1 -> 0 < speed2 w -> 0 < h ->
  integrate_quat q w h = quat_mul q (axis_quat w).
Proof.
  intros Hq Hw Hh.
  assert (Hs : sqrt (speed2 w) * sqrt (speed2 w) = speed2 w)
    by (apply sqrt_sqrt; lra).
  assert (Hr : 0 < sqrt (speed2 w)) by (apply sqrt_lt_R0; exact Hw).
  unfold integrate_quat. cbv zeta.
  set (dq := mkQuat _ _ _ _).
  assert (Hp : norm2 (quat_mul q dq)
               = (h * sqrt (speed2 w)) * (h * sqrt (speed2 w))).
  { rewrite quat_mul_hamilton, hamilton_norm2, Hq.
    replace (h * sqrt (speed2 w) * (h * sqrt (speed2 w)))
      with (h * h * (sqrt (speed2 w) * sqrt (speed2 w))) by ring.
    rewrite Hs. unfold dq, norm2, speed2. cbn. ring. }
  unfold quat_norm. cbv zeta. rewrite quat_len_exact, Hp.
  rewrite sqrt_square by nra.
  destruct q as [a b c d]. unfold dq, quat_mul, axis_quat. cbn.
  set (r := sqrt (speed2 w)) in *.
  apply quat_eq; field; lra.
Qed.

(** X9.  In exact arithmetic, for a unit orientation, a nonzero angular
    velocity and a positive time step, [integrate_quat] returns
    [q (x) (0, w/|w|)]: the orientation turned by half a turn about the
    axis of [w].  The result depends neither on the time step nor on the
    speed: any other positive step and any positive multiple of [w] give
    the same orientation. *)
Theorem integrate_quat_half_turn (q : Quat R) (w : float3 R) (h h' k : R) :
  norm2 q = 1 -> 0 < speed2 w -> 0 < h -> 0 < h' -> 0 < k ->
  integrate_quat q w h = quat_mul q (axis_quat w)
  /\ integrate_quat q (make_float3 (k * vx w) (k * vy w) (k * vz w)) h'
     = integrate_quat q w h.
Proof.
  intros Hq Hw Hh Hh' Hk.
  split; [now apply integrate_quat_axis|].
  assert (Hkw : speed2 (make_float3 (k * vx w) (k * vy w) (k * vz w))
                = (k * sqrt (speed2 w)) * (k * sqrt (speed2 w))).
  { replace (k * sqrt (speed2 w) * (k * sqrt (speed2 w)))
      with (k * k * (sqrt (speed2 w) * sqrt (speed2 w))) by ring.
    rewrite sqrt_sqrt by lra. unfold speed2. cbn. ring. }
  assert (Hr : 0 < sqrt (speed2 w)) by (apply sqrt_lt_R0; exact Hw).
  rewrite !integrate_quat_axis; try assumption.
  - f_equal. unfold axis_quat. rewrite Hkw, sqrt_square
      by (apply Rlt_le, Rmult_lt_0_compat; assumption).
    cbn [vx vy vz].
    set (r := sqrt (speed2 w)) in *.
    apply quat_eq; field; split; lra.
  - rewrite Hkw.
    assert (0 < k * sqrt (speed2 w)) by (apply Rmult_lt_0_compat; assumption).
    apply Rmult_lt_0_compat; assumption.
Qed.

Lemma integrate_quat_half_turn_witness :
  norm2 qi = 1 /\ 0 < speed2 (make_float3 0 1 0) /\ 0 < 1 /\ 0 < 2 /\ 0 < 3
  /\ integrate_quat qi (make_float3 0 1 0) 1
     = quat_mul qi (axis_quat (make_float3 0 1 0))
  /\ integrate_quat qi (make_float3 (3 * 0) (3 * 1) (3 * 0)) 2
     = integrate_quat qi (make_float3 0 1 0) 1.
Proof.
  assert (H1 : norm2 qi = 1) by (unfold norm2; cbn; lra).
  assert (H2 : 0 < speed2 (make_float3 0 1 0)) by (unfold speed2; cbn; lra).
  assert (H3 : 0 < 1) by lra. assert (H4 : 0 < 2) by lra.
  assert (H5 : 0 < 3) by lra.
  repeat (split; [assumption|]).
  exact (integrate_quat_half_turn qi (make_float3 0 1 0) 1 2 3 H1 H2 H3 H4 H5).
Defined.

(** X10.  In exact arithmetic, two steps of [integrate_quat] with the
    same nonzero angular velocity take a unit orientation [q] to [-q], and
    [quat_to_mat] gives the matrix of [q] again: under a constant angular
    velocity the rotation that is drawn repeats every second frame. *)
Theorem integrate_quat_period_two (q : Quat R) (w : float3 R) (h : R) :
  norm2 q = 1 -> 0 < speed2 w -> 0 < h ->
  integrate_quat (integrate_quat q w h) w h = quat_neg q
  /\ quat_to_mat (integrate_quat (integrate_quat q w h) w h) = quat_to_mat q.
Proof.
  intros Hq Hw Hh.
  assert (Hu := axis_quat_unit w Hw).
  assert (E : integrate_quat (integrate_quat q w h) w h = quat_neg q).
  { rewrite (integrate_quat_axis q w h Hq Hw Hh).
    rewrite integrate_quat_axis; try assumption.
    - revert Hu. unfold axis_quat. set (r := sqrt (speed2 w)).
      set (a := vx w / r). set (b := vy w / r). set (c := vz w / r).
      destruct q as [qa qb qc qd]. unfold norm2, quat_mul, quat_neg. cbn.
      intros Hu. apply quat_eq.
      + transitivity (- qa * (0 * 0 + a * a + b * b + c * c)); [ring|].
        rewrite Hu. ring.
      + transitivity (- qb * (0 * 0 + a * a + b * b + c * c)); [ring|].
        rewrite Hu. ring.
      + transitivity (- qc * (0 * 0 + a * a + b * b + c * c)); [ring|].
        rewrite Hu. ring.
      + transitivity (- qd * (0 * 0 + a * a + b * b + c * c)); [ring|].
        rewrite Hu. ring.
    - rewrite quat_mul_hamilton, hamilton_norm2, Hq, Hu. ring. }
  split; [exact E|]. rewrite E. apply quat_to_mat_neg_exact.
Qed.

Lemma integrate_quat_period_two_witness :
  norm2 qi = 1 /\ 0 < speed2 (make_float3 0 1 0) /\ 0 < 1
  /\ integrate_quat (integrate_quat qi (make_float3 0 1 0) 1) (make_float3 0 1 0) 1
     = quat_neg qi
  /\ quat_to_mat (integrate_quat (integrate_quat qi (make_float3 0 1 0) 1)
                                 (make_float3 0 1 0) 1) = quat_to_mat qi.
Proof.
  assert (H1 : norm2 qi = 1) by (unfold norm2; cbn; lra).
  assert (H2 : 0 < speed2 (make_float3 0 1 0)) by (unfold speed2; cbn; lra).
  assert (H3 : 0 < 1) by lra.
  repeat (split; [assumption|]).
  exact (integrate_quat_period_two qi (make_float3 0 1 0) 1 H1 H2 H3).
Defined.

(** X11.  In exact arithmetic [integrate_quat] returns a unit quaternion
    for every nonzero orientation, nonzero angular velocity and nonzero
    time step. *)
Theorem integrate_quat_unit (q : Quat R) (w : float3 R) (h : R) :
  0 < norm2 q -> 0 < speed2 w -> h <> 0 ->
  norm2 (integrate_quat q w h) = 1.
Proof.
  intros Hq Hw Hh. unfold integrate_quat. cbv zeta.
  set (dq := mkQuat _ _ _ _).
  assert (E : norm2 dq = h * h * speed2 w)
    by (unfold dq, norm2, speed2; cbn; ring).
  apply quat_norm_unit. rewrite quat_mul_hamilton, hamilton_norm2, E.
  assert (0 < h * h) by nra.
  apply Rmult_lt_0_compat; [exact Hq|].
  apply Rmult_lt_0_compat; assumption.
Qed.

Lemma integrate_quat_unit_witness :
  0 < norm2 qi /\ 0 < speed2 (make_float3 0 1 0) /\ 1 <> 0
  /\ norm2 (integrate_quat qi (make_float3 0 1 0) 1) = 1.
Proof.
  assert (H1 : 0 < norm2 qi) by (unfold norm2; cbn; lra).
  assert (H2 : 0 < speed2 (make_float3 0 1 0)) by (unfold speed2; cbn; lra).
  assert (H3 : 1 <> 0) by lra.
  repeat (split; [assumption|]).
  exact (integrate_quat_unit qi (make_float3 0 1 0) 1 H1 H2 H3).
Defined.

(** ** The kernel *)

Lemma clampW_shrinks (u : R) : Rabs (clampW u) <= Rabs u.
Proof.
  rewrite clampW_exact. unfold Rmin, Rmax.
  repeat destruct Rle_dec; unfold Rabs; repeat destruct Rcase_abs; lra.
Qed.

(** X12.  In exact arithmetic the [x] components decay geometrically
    under repeated launches: after [n] of them each is at most [0.995^n]
    times its starting magnitude. *)
Theorem x_spin_decays (a b : SphereGPU R) (n : nat) :
  Rabs (vx (omega (fst (couple n (a, b)))))
    <= (995 / 1000) ^ n * Rabs (vx (omega a))
  /\ Rabs (vx (omega (snd (couple n (a, b)))))
     <= (995 / 1000) ^ n * Rabs (vx (omega b)).
Proof.
  induction n as [|n [IHa IHb]]; [cbn; lra|].
  rewrite couple_succ.
  destruct (enforce_mesh_components (fst (couple n (a, b)))
                                    (snd (couple n (a, b)))) as [-> ->].
  cbn [vx pow]. unfold damp_clamp.
  assert (Hd : forall u, Rabs (clampW (fmul u damping)) <= 995 / 1000 * Rabs u).
  { intros u. eapply Rle_trans; [apply clampW_shrinks|].
    change (fmul u damping) with (u * (995 / 1000)).
    rewrite Rabs_mult, (Rabs_pos_eq (995 / 1000)) by lra. lra. }
  split.
  - eapply Rle_trans; [apply Hd|]. nra.
  - eapply Rle_trans; [apply Hd|]. nra.
Qed.

End ExactRendering.

(** * Rendering and the loop in single precision *)

Section SingleRendering.
Import Binary32.
Local Open Scope fl_scope.

(** ** NaN and the sign in the operations *)

Lemma mul_nan_l (y : float) : SFmul prec emax S754_nan y = S754_nan.
Proof. destruct y; reflexivity. Qed.
Lemma mul_nan_r (x : float) : SFmul prec emax x S754_nan = S754_nan.
Proof. destruct x; reflexivity. Qed.
Lemma add_nan_l (y : float) : SFadd prec emax S754_nan y = S754_nan.
Proof. destruct y; reflexivity. Qed.
Lemma add_nan_r (x : float) : SFadd prec emax x S754_nan = S754_nan.
Proof. destruct x; reflexivity. Qed.
Lemma sub_nan_l (y : float) : SFsub prec emax S754_nan y = S754_nan.
Proof. destruct y; reflexivity. Qed.
Lemma sub_nan_r (x : float) : SFsub prec emax x S754_nan = S754_nan.
Proof. destruct x; reflexivity. Qed.
Lemma div_nan_l (y : float) : SFdiv prec emax S754_nan y = S754_nan.
Proof. destruct y; reflexivity. Qed.
Lemma div_nan_r (x : float) : SFdiv prec emax x S754_nan = S754_nan.
Proof. destruct x; reflexivity. Qed.

Lemma mul_opp_opp (x y : float) :
  SFmul prec emax (SFopp x) (SFopp y) = SFmul prec emax x y.
Proof.
  destruct x as [s|s| |s m e], y as [s'|s'| |s' m' e']; try reflexivity;
    destruct s, s'; reflexivity.
Qed.

Lemma div_by_zero (x n : float) :
  is_zero n = true -> non_finite (SFdiv prec emax x n) = true.
Proof.
  destruct n as [s| | |]; try discriminate. intros _.
  destruct x as [s'|s'| |s' m e]; reflexivity.
Qed.

(** X13.  In single precision [q] and [-q] give the same matrix, entry
    for entry and bit for bit, whatever the components are. *)
Theorem quat_to_mat_neg (q : Q32) :
  quat_to_mat (quat_neg q) = quat_to_mat q.
Proof.
  destruct q as [w x y z]. unfold quat_to_mat, quat_neg.
  cbn [qw qx qy qz fneg fmul arith]. now rewrite !mul_opp_opp.
Qed.

(** X14.  [quat_norm] has no guard: when the divisor it computes is a
    zero, every component it returns is an infinity or NaN. *)
Theorem quat_norm_zero_divisor (q : Q32) :
  is_zero (quat_len q) = true ->
  non_finite (qw (quat_norm q)) = true /\ non_finite (qx (quat_norm q)) = true
  /\ non_finite (qy (quat_norm q)) = true /\ non_finite (qz (quat_norm q)) = true.
Proof.
  intros H. unfold quat_norm. cbv zeta. cbn [qw qx qy qz fdiv arith].
  repeat split; now apply div_by_zero.
Qed.

Lemma quat_norm_zero_divisor_witness :
  is_zero (quat_len (mkQuat (b32_of_int 0) tiny tiny tiny)) = true
  /\ non_finite (qw (quat_norm (mkQuat (b32_of_int 0) tiny tiny tiny))) = true
  /\ non_finite (qx (quat_norm (mkQuat (b32_of_int 0) tiny tiny tiny))) = true
  /\ non_finite (qy (quat_norm (mkQuat (b32_of_int 0) tiny tiny tiny))) = true
  /\ non_finite (qz (quat_norm (mkQuat (b32_of_int 0) tiny tiny tiny))) = true.
Proof.
  split; [reflexivity|].
  apply (quat_norm_zero_divisor (mkQuat (b32_of_int 0) tiny tiny tiny)).
  reflexivity.
Defined.

Lemma quat_mul_nan (q dq : Q32) :
  has_nan q = true -> quat_mul q dq = all_nan.
Proof.
  destruct q as [a b c d]. unfold has_nan. cbn [qw qx qy qz].
  rewrite !orb_true_iff. unfold quat_mul, all_nan.
  cbn [qw qx qy qz fmul fadd fsub arith].
  intros [[[H|H]|H]|H];
    [destruct a | destruct b | destruct c | destruct d]; try discriminate H;
    now rewrite ?mul_nan_l, ?add_nan_l, ?add_nan_r, ?sub_nan_l, ?sub_nan_r.
Qed.

Lemma quat_norm_nan : quat_norm all_nan = all_nan.
Proof. reflexivity. Qed.

Lemma integrate_quat_poisoned (q : Q32) (w : f3) (h : float) :
  has_nan q = true -> integrate_quat q w h = all_nan.
Proof.
  intros H. unfold integrate_quat. cbv zeta.
  rewrite (quat_mul_nan q _ H). apply quat_norm_nan.
Qed.

(** X15.  A NaN in any component of the orientation is there to stay:
    [integrate_quat] then returns the orientation with four NaNs, for every
    angular velocity and time step, and the matrix of that orientation has
    NaN in all nine entries of its rotation block. *)
Theorem integrate_quat_nan (q : Q32) (w : f3) (h : float) :
  has_nan q = true ->
  integrate_quat q w h = all_nan
  /\ rotation_nan (quat_to_mat (integrate_quat q w h)) = true.
Proof.
  intros H. rewrite (integrate_quat_poisoned q w h H). split; reflexivity.
Qed.

Lemma integrate_quat_nan_witness :
  has_nan (mkQuat S754_nan (b32_of_int 0) (b32_of_int 0) (b32_of_int 0)) = true
  /\ integrate_quat (mkQuat S754_nan (b32_of_int 0) (b32_of_int 0) (b32_of_int 0))
                    (omega (d1 init32)) dt = all_nan
  /\ rotation_nan
       (quat_to_mat
          (integrate_quat (mkQuat S754_nan (b32_of_int 0) (b32_of_int 0)
                                  (b32_of_int 0))
                          (omega (d1 init32)) dt)) = true.
Proof.
  split; [reflexivity|]. apply integrate_quat_nan. reflexivity.
Defined.

End SingleRendering.

(** * More on the loop in single precision *)

Section SingleLoop.
Import Binary32.
Local Open Scope fl_scope.

Lemma gate_keeps_orientation {F : Type} {A : Arith F} (s : World F) :
  q1 (fst (gate s)) = q1 s /\ q2 (fst (gate s)) = q2 s.
Proof.
  unfold gate. destruct (x1 s <? contactThreshold); [split; reflexivity|].
  destruct (enforce_mesh (d1 s) (d2 s)). split; reflexivity.
Qed.

Lemma frame_orientation {F : Type} {A : Arith F} (s : World F) :
  q1 (frame s) = integrate_quat (q1 s) (omega (d1 (fst (gate s)))) dt
  /\ q2 (frame s) = integrate_quat (q2 s) (omega (d2 (fst (gate s)))) dt.
Proof.
  destruct (gate_keeps_orientation s) as [E1 E2].
  unfold frame, copy_and_integrate. cbn [q1 q2]. now rewrite E1, E2.
Qed.

(** Once an orientation holds a NaN, it is four NaNs after every later
    frame. *)
Lemma nan_orientation_stays (s : W32) (n : nat) :
  has_nan (q1 s) = true -> q1 (run (S n) s) = all_nan.
Proof.
  intros H. induction n as [|n IH].
  - change (run 1 s) with (frame s).
    destruct (frame_orientation s) as [-> _]. now apply integrate_quat_poisoned.
  - rewrite run_succ. destruct (frame_orientation (run (S n) s)) as [-> _].
    apply integrate_quat_poisoned. now rewrite IH.
Qed.

Lemma left_orientation_at_10821 :
  q1 (run (Z.to_nat 10821) init32) = all_nan.
Proof.
  replace (Z.to_nat 10821) with (S (S (Z.to_nat 10819))) by lia.
  rewrite !run_succ, run_10819. vm_compute. reflexivity.
Qed.

(** X16.  From frame 10821 on, the orientation of the left body is four
    NaNs in every frame, and so is the rotation block of the matrix that is
    handed to OpenGL for it. *)
Theorem left_orientation_lost (n : nat) :
  (10821 <= Z.of_nat n)%Z ->
  q1 (run n init32) = all_nan
  /\ rotation_nan (quat_to_mat (q1 (run n init32))) = true.
Proof.
  intros Hn.
  assert (E : q1 (run n init32) = all_nan).
  { destruct (Z.eq_dec (Z.of_nat n) 10821) as [E|E].
    - replace n with (Z.to_nat 10821) by lia. apply left_orientation_at_10821.
    - replace n with (Z.to_nat 10821 + S (n - Z.to_nat 10821 - 1))%nat by lia.
      rewrite run_add. apply nan_orientation_stays.
      now rewrite left_orientation_at_10821. }
  rewrite E. split; reflexivity.
Qed.

Lemma left_orientation_lost_witness :
  (10821 <= Z.of_nat (Z.to_nat 10830))%Z
  /\ q1 (run (Z.to_nat 10830) init32) = all_nan
  /\ rotation_nan (quat_to_mat (q1 (run (Z.to_nat 10830) init32))) = true.
Proof.
  split; [vm_compute; discriminate|].
  apply left_orientation_lost. vm_compute. discriminate.
Defined.

(** ** The bounds along the loop *)

Lemma SFcompare_opp (a b : float) :
  SFcompare (SFopp a) (SFopp b) = SFcompare b a.
Proof.
  destruct a as [sa|sa| |sa ma ea], b as [sb|sb| |sb mb eb]; simpl;
    try destruct sa; try destruct sb; try reflexivity;
    rewrite (Z.compare_antisym ea eb); destruct (ea ?= eb)%Z; simpl;
    try reflexivity;
    first [ rewrite (Pos.compare_cont_antisym ma mb Eq)
          | rewrite (Pos.compare_cont_antisym mb ma Eq) ]; reflexivity.
Qed.

Lemma in_range_abs (z : float) :
  in_range z = true ->
  SFleb (b32_of_int 0) (SFabs z) && SFleb (SFabs z) upper = true.
Proof.
  unfold in_range. change (SFopp (b32_of_dec 50 10)) with (SFopp upper).
  change (b32_of_dec 50 10) with upper.
  intros H. apply andb_true_iff in H. destruct H as [Hl Hu].
  destruct z as [s|s| |s m e].
  - reflexivity.
  - destruct s; discriminate.
  - discriminate.
  - destruct s.
    + change (SFabs (S754_finite true m e)) with (S754_finite false m e).
      apply andb_true_iff. split; [reflexivity|].
      unfold SFleb in Hl |- *.
      rewrite <- (SFcompare_opp upper (S754_finite false m e)). exact Hl.
    + apply andb_true_iff. split; [reflexivity|exact Hu].
Qed.

Lemma hud_reading (h : Sphere) :
  range3 (omega h) = true -> hud_in_range h = true.
Proof.
  unfold range3, hud_in_range, hud. cbn [fst fabs arith].
  rewrite !andb_true_iff. intros [_ Hz]. apply andb_true_iff.
  now apply in_range_abs.
Qed.

(** A frame keeps the device records within the bounds, and copies them to
    the host. *)
Lemma frame_bounds (s : W32) :
  range3 (omega (d1 s)) = true -> range3 (omega (d2 s)) = true ->
  range3 (omega (d1 (frame s))) = true /\ range3 (omega (d2 (frame s))) = true
  /\ h1 (frame s) = d1 (frame s) /\ h2 (frame s) = d2 (frame s).
Proof.
  intros R1 R2. destruct (frame_fields s) as (_ & _ & F1 & F2 & G1 & G2).
  destruct (kernel_in_range (d1 s) (d2 s)) as [K1 K2].
  assert (H : range3 (omega (d1 (fst (gate s)))) = true
              /\ range3 (omega (d2 (fst (gate s)))) = true).
  { rewrite <- F1, <- F2. destruct (phase s) eqn:Hp.
    - destruct (frame_approaching s Hp) as (_ & _ & -> & ->). now split.
    - destruct (frame_meshed s Hp) as (_ & _ & -> & ->). now split. }
  destruct H as [H1 H2].
  split; [now rewrite F1|]. split; [now rewrite F2|].
  split; [now rewrite G1, F1|now rewrite G2, F2].
Qed.

Lemma run_bounds (n : nat) :
  range3 (omega (d1 (run n init32))) = true
  /\ range3 (omega (d2 (run n init32))) = true
  /\ h1 (run n init32) = d1 (run n init32)
  /\ h2 (run n init32) = d2 (run n init32).
Proof.
  induction n as [|n (R1 & R2 & _)].
  - split; [reflexivity|]. split; [reflexivity|]. split; reflexivity.
  - rewrite run_succ. apply frame_bounds; assumption.
Qed.

(** X17.  At every frame of the loop, before and after contact, every
    component of both angular velocities (device records and host copies)
    lies in [[-5, 5]], and the number the HUD prints for each body,
    [fabs(omega.z)], lies in [[0, 5]]. *)
Theorem angular_velocity_bounded (n : nat) :
  range3 (omega (d1 (run n init32))) = true
  /\ range3 (omega (d2 (run n init32))) = true
  /\ range3 (omega (h1 (run n init32))) = true
  /\ range3 (omega (h2 (run n init32))) = true
  /\ hud_in_range (h1 (run n init32)) = true
  /\ hud_in_range (h2 (run n init32)) = true.
Proof.
  destruct (run_bounds n) as (R1 & R2 & -> & ->).
  repeat split; try assumption; now apply hud_reading.
Qed.

(** ** The approach *)

Lemma same_float_eq (a b : float) : same_float a b = true -> a = b.
Proof.
  destruct a as [s|s| |s m e], b as [s'|s'| |s' m' e']; cbn [same_float];
    try discriminate; try reflexivity.
  - intros H. apply Bool.eqb_prop in H. now subst.
  - intros H. apply Bool.eqb_prop in H. now subst.
  - rewrite !andb_true_iff. intros [[H1 H2] H3].
    apply Bool.eqb_prop in H1. apply Pos.eqb_eq in H2. apply Z.eqb_eq in H3.
    now subst.
Qed.

Lemma closing_100 :
  exists s, holds_for closing 100 init32 = Some s
            /\ phase s = MESHED /\ mirrored s = true /\ apart s = true
            /\ d1 s = d1 init32 /\ d2 s = d2 init32.
Proof.
  eexists. split; [vm_compute; reflexivity|].
  split; [reflexivity|]. split; [reflexivity|]. split; [reflexivity|].
  split; reflexivity.
Qed.

(** X18.  At every frame the two centres are mirror images,
    [x2 = -x1] bit for bit, and [x1 <= -1]: the unit spheres never overlap
    (they stop at [x1 = -1.00000095]). *)
Theorem positions_mirrored (n : nat) :
  x2 (run n init32) = SFopp (x1 (run n init32))
  /\ SFleb (x1 (run n init32)) (b32_of_int (-1)) = true.
Proof.
  destruct closing_100 as (s & Hrun & Hp & Hm & Ha & _).
  destruct (holds_for_spec _ _ _ _ Hrun) as [-> Hall].
  destruct (Nat.lt_ge_cases n 100) as [Hn|Hn].
  - specialize (Hall n Hn). unfold closing in Hall.
    rewrite !andb_true_iff in Hall. destruct Hall as [[_ Hm'] Ha'].
    split; [now apply same_float_eq|exact Ha'].
  - replace n with (100 + (n - 100))%nat by lia. rewrite run_add.
    destruct (meshed_run (run 100 init32) (n - 100) Hp) as (_ & -> & ->).
    split; [now apply same_float_eq|exact Ha].
Qed.

(** X19.  Nothing touches the angular velocities before contact: after
    each of the first 100 frames the device records and the host copies
    hold the values the program starts with; damping begins with frame
    101. *)
Theorem spin_untouched_during_approach (n : nat) :
  (n <= 100)%nat ->
  d1 (run n init32) = d1 init32 /\ d2 (run n init32) = d2 init32
  /\ h1 (run n init32) = h1 init32 /\ h2 (run n init32) = h2 init32.
Proof.
  destruct closing_100 as (s & Hrun & _).
  destruct (holds_for_spec _ _ _ _ Hrun) as [_ Hall].
  induction n as [|n IH]; intros Hn; [repeat split|].
  destruct IH as (E1 & E2 & _); [lia|].
  assert (Hp : phase (run n init32) = APPROACHING).
  { specialize (Hall n ltac:(lia)). unfold closing, approaching in Hall.
    destruct (phase (run n init32)); [reflexivity|discriminate]. }
  rewrite run_succ.
  destruct (frame_approaching _ Hp) as (_ & _ & F1 & F2).
  destruct (frame_fields (run n init32)) as (_ & _ & G1 & G2 & H1 & H2).
  rewrite H1, H2, <- G1, <- G2, F1, F2, E1, E2. repeat split.
Qed.

Lemma spin_untouched_during_approach_witness :
  (100 <= 100)%nat
  /\ d1 (run 100 init32) = d1 init32 /\ d2 (run 100 init32) = d2 init32
  /\ h1 (run 100 init32) = h1 init32 /\ h2 (run 100 init32) = h2 init32.
Proof.
  split; [lia|]. apply (spin_untouched_during_approach 100). lia.
Defined.

End SingleLoop.
